(** * brainfuck.py: tokenizer and table-jump interpreter

    A shallow embedding of [src/brainfuck.py].  Python exceptions are values of
    an error monad, the two dictionaries of the interpreter ([_jump_table] and
    the cell store [data]) are finite maps, and the [while True] loop of [run]
    is a body function iterated under a fuel bound. *)

From Stdlib Require Import ZArith Ascii String Sorted.
From stdpp Require Import gmap list fin_maps pretty.

Local Open Scope Z_scope.

(** ** Exceptions *)

(** The built-in exceptions the program can raise: [list.pop] on an empty
    list and [out[-1]] on an empty string, a missing dictionary key, [chr] of
    an integer that fits a C [int] but is no code point, [chr] of an integer
    that does not fit a C [int]. *)
Inductive exn : Set := IndexError | KeyError | ValueError | OverflowError.

Inductive result (A : Type) : Type :=
| Ok (a : A)
| Raise (e : exn).
Arguments Ok {A} a.
Arguments Raise {A} e.

Global Instance result_ret : MRet result := λ A a, Ok a.
Global Instance result_bind : MBind result := λ A B k r,
  match r with
  | Ok a => k a
  | Raise e => Raise e
  end.

(** ** Strings *)

(** A Python [str] is a sequence of code points. *)
Abbreviation char := Z (only parsing).
Abbreviation str := (list char) (only parsing).

Definition ord (c : ascii) : char := Z.of_N (N_of_ascii c).

Definition str_of_string (s : string) : str := ord <$> list_ascii_of_string s.

(** [chr(i)]: defined on [range(0x110000)]. The builtin first converts its
    argument to a C [int] (32 bits, signed), which raises an [OverflowError]
    outside [[-2^31, 2^31 - 1]]; within that range an argument that is not in
    [range(0x110000)] raises a [ValueError]. *)
Definition chr (i : Z) : result char :=
  if bool_decide (0 ≤ i < 1114112) then Ok i
  else if bool_decide (-2147483648 ≤ i ≤ 2147483647) then Raise ValueError
  else Raise OverflowError.

(** The exception [chr] raises on an integer that is no code point. *)
Definition chr_exn (i : Z) : exn :=
  if bool_decide (-2147483648 ≤ i ≤ 2147483647) then ValueError
  else OverflowError.

(** ** Tokens *)

(** [class TokenEnum(Enum)], lines 9-17. *)
Inductive TokenEnum : Set :=
| INCREMENT_POINTER
| DECREMENT_POINTER
| INCREMENT_BYTE
| DECREMENT_BYTE
| OUTPUT_BYTE
| INPUT_BYTE
| LOOP_START
| LOOP_END.

Global Instance TokenEnum_eq_dec : EqDecision TokenEnum.
Proof. solve_decision. Defined.

(** [class BrainfuckToken], lines 20-47: the token kind and the offset of the
    character it was read from. *)
Record BrainfuckToken : Set := mkToken {
  type : TokenEnum;
  _char_idx : nat
}.

Global Instance BrainfuckToken_eq_dec : EqDecision BrainfuckToken.
Proof. solve_decision. Defined.

(** [BrainfuckToken.token_enum_map], lines 23-32, keyed by code point. *)
Definition token_enum_map : gmap char TokenEnum :=
  list_to_map
    [ (ord ">", INCREMENT_POINTER);
      (ord "<", DECREMENT_POINTER);
      (ord "+", INCREMENT_BYTE);
      (ord "-", DECREMENT_BYTE);
      (ord ".", OUTPUT_BYTE);
      (ord ",", INPUT_BYTE);
      (ord "[", LOOP_START);
      (ord "]", LOOP_END) ].

(** [d[k]] on a dictionary: a [KeyError] when the key is missing. *)
Definition getitem `{Countable K} {V : Type} (d : gmap K V) (k : K) : result V :=
  match d !! k with
  | Some v => Ok v
  | None => Raise KeyError
  end.

(** [BrainfuckToken.from_char], lines 44-47. *)
Definition from_char (c : char) (char_idx : nat) : result BrainfuckToken :=
  token_type ← getitem token_enum_map c;
  Ok (mkToken token_type char_idx).

(** ** Lexer *)

(** [valid_whitespaces], line 58: space, newline, tab. *)
Definition valid_whitespaces : list char := [ord " "; ord "010"; ord "009"].

(** The body of the [for idx, char in enumerate(self._program)] loop of
    [tokenize], run from offset [idx] on the rest of the program. *)
Fixpoint tokenize_loop (idx : nat) (program : str) (tokens : list BrainfuckToken)
  : result (list BrainfuckToken) :=
  match program with
  | [] => Ok tokens
  | c :: program' =>
      if bool_decide (c ∈ valid_whitespaces) then
        tokenize_loop (S idx) program' tokens
      else if bool_decide (token_enum_map !! c = None) then
        tokenize_loop (S idx) program' tokens
      else
        tok ← from_char c idx;
        tokenize_loop (S idx) program' (tokens ++ [tok])
  end.

(** [BrainfuckLexer.tokenize], lines 56-65. *)
Definition tokenize (_program : str) : result (list BrainfuckToken) :=
  tokenize_loop 0 _program [].

(** ** Interpreter *)

(** The attributes of a [BrainfuckInterpreter] once [__init__] has returned. *)
Record BrainfuckInterpreter : Type := mkInterpreter {
  _tokens : list BrainfuckToken;
  _jump_table : gmap nat nat;
  _bits : Z;
  _bitwidth : Z
}.

(** [jump_stack] is a Python list used as a stack ([append] and [pop] at its
    end); it is kept here with its last element first. *)
Definition pop (jump_stack : list nat) : result (nat * list nat) :=
  match jump_stack with
  | [] => Raise IndexError
  | top :: jump_stack' => Ok (top, jump_stack')
  end.

(** The [for instr, token in enumerate(self._tokens)] loop of [validate]. *)
Fixpoint validate_loop (instr : nat) (tokens : list BrainfuckToken)
    (jump_stack : list nat) : result (list nat) :=
  match tokens with
  | [] => Ok jump_stack
  | token :: tokens' =>
      let jump_stack :=
        if decide (type token = LOOP_START) then instr :: jump_stack
        else jump_stack in
      jump_stack ←
        (if decide (type token = LOOP_END) then
           '(_, jump_stack) ← pop jump_stack; Ok jump_stack
         else Ok jump_stack);
      validate_loop (S instr) tokens' jump_stack
  end.

(** [BrainfuckInterpreter.validate], lines 156-163. *)
Definition validate (tokens : list BrainfuckToken) : result bool :=
  jump_stack ← validate_loop 0%nat tokens [];
  Ok (bool_decide (jump_stack = [])).

(** The loop of [_calc_jump_table], threading the stack and the table. *)
Fixpoint calc_loop (instr : nat) (tokens : list BrainfuckToken)
    (jump_stack : list nat) (jump_table : gmap nat nat)
  : result (list nat * gmap nat nat) :=
  match tokens with
  | [] => Ok (jump_stack, jump_table)
  | token :: tokens' =>
      let jump_stack :=
        if decide (type token = LOOP_START) then instr :: jump_stack
        else jump_stack in
      '(jump_stack, jump_table) ←
        (if decide (type token = LOOP_END) then
           '(start_loop, jump_stack) ← pop jump_stack;
           let jump_table := <[instr := start_loop]> jump_table in
           let jump_table := <[start_loop := S instr]> jump_table in
           Ok (jump_stack, jump_table)
         else Ok (jump_stack, jump_table));
      calc_loop (S instr) tokens' jump_stack jump_table
  end.

(** [BrainfuckInterpreter._calc_jump_table], lines 146-154; the table it
    updates in place is passed in and returned. *)
Definition _calc_jump_table (tokens : list BrainfuckToken)
    (jump_table : gmap nat nat) : result (gmap nat nat) :=
  '(_, jump_table) ← calc_loop 0%nat tokens [] jump_table;
  Ok jump_table.

(** [BrainfuckInterpreter.__init__], lines 83-93. The value [validate]
    returns is dropped; only an exception it raises is passed on. *)
Definition __init__ (tokens : list BrainfuckToken) (bits : Z)
  : result BrainfuckInterpreter :=
  _ ← validate tokens;
  jump_table ← _calc_jump_table tokens ∅;
  if bool_decide (bits ∈ [8; 16; 32; 64]) then
    Ok (mkInterpreter tokens jump_table bits (2 ^ bits))
  else
    Ok (mkInterpreter tokens jump_table 8 256).

(** ** Execution *)

(** The local variables of [run], lines 96-100. *)
Record locals : Type := mkLocals {
  pointer : Z;
  instr : nat;
  steps : nat;
  data : gmap Z Z;
  output : str
}.

Definition set_pointer (p : Z) (s : locals) : locals :=
  mkLocals p (instr s) (steps s) (data s) (output s).
Definition set_instr (i : nat) (s : locals) : locals :=
  mkLocals (pointer s) i (steps s) (data s) (output s).
Definition set_steps (n : nat) (s : locals) : locals :=
  mkLocals (pointer s) (instr s) n (data s) (output s).
Definition set_data (d : gmap Z Z) (s : locals) : locals :=
  mkLocals (pointer s) (instr s) (steps s) d (output s).
Definition set_output (o : str) (s : locals) : locals :=
  mkLocals (pointer s) (instr s) (steps s) (data s) o.

(** [d.setdefault(k, v)]: the value read and the dictionary afterwards. *)
Definition setdefault (d : gmap Z Z) (k v : Z) : Z * gmap Z Z :=
  match d !! k with
  | Some w => (w, d)
  | None => (v, <[k := v]> d)
  end.

(** How one pass through the body of [while True] ends: by falling through to
    [instr += 1], by [continue], or by [break]. *)
Inductive signal : Type :=
| Fallthrough (s : locals)
| ContinueLoop (s : locals)
| BreakLoop (s : locals).

(** [self._tokens[instr]] *)
Definition token_at (tokens : list BrainfuckToken) (i : nat)
  : result BrainfuckToken :=
  match tokens !! i with
  | Some token => Ok token
  | None => Raise IndexError
  end.

(** The body of [while True], lines 102-141, up to but not including
    [instr += 1]. *)
Definition loop_body (self : BrainfuckInterpreter) (s : locals) : result signal :=
  let s := set_steps (S (steps s)) s in
  if bool_decide (length (_tokens self) ≤ instr s)%nat then Ok (BreakLoop s)
  else
    token ← token_at (_tokens self) (instr s);
    let typ := type token in
    let s := set_data (setdefault (data s) (pointer s) 0).2 s in
    match typ with
    | INCREMENT_POINTER => Ok (Fallthrough (set_pointer (pointer s + 1) s))
    | DECREMENT_POINTER => Ok (Fallthrough (set_pointer (pointer s - 1) s))
    | INCREMENT_BYTE =>
        v ← getitem (data s) (pointer s);
        let s := set_data (<[pointer s := v + 1]> (data s)) s in
        v ← getitem (data s) (pointer s);
        if bool_decide (v = _bitwidth self) then
          Ok (Fallthrough (set_data (<[pointer s := 0]> (data s)) s))
        else Ok (Fallthrough s)
    | DECREMENT_BYTE =>
        v ← getitem (data s) (pointer s);
        let s := set_data (<[pointer s := v - 1]> (data s)) s in
        v ← getitem (data s) (pointer s);
        if bool_decide (v = -1) then
          Ok (Fallthrough
                (set_data (<[pointer s := _bitwidth self - 1]> (data s)) s))
        else Ok (Fallthrough s)
    | OUTPUT_BYTE =>
        let '(v, d) := setdefault (data s) (pointer s) 0 in
        let s := set_data d s in
        c ← chr v;
        Ok (Fallthrough (set_output (output s ++ [c]) s))
    | INPUT_BYTE => Ok (Fallthrough s)
    | LOOP_START =>
        v ← getitem (data s) (pointer s);
        if bool_decide (v = 0) then
          target ← getitem (_jump_table self) (instr s);
          Ok (ContinueLoop (set_instr target s))
        else Ok (Fallthrough s)
    | LOOP_END =>
        v ← getitem (data s) (pointer s);
        if bool_decide (v ≠ 0) then
          target ← getitem (_jump_table self) (instr s);
          Ok (ContinueLoop (set_instr target s))
        else Ok (Fallthrough s)
    end.

(** What one iteration of the [while True] loop leaves behind. *)
Inductive control : Type :=
| Next (s : locals)
| Return (out : str).

Definition iteration (self : BrainfuckInterpreter) (s : locals) : result control :=
  sig ← loop_body self s;
  match sig with
  | Fallthrough s => Ok (Next (set_instr (S (instr s)) s))
  | ContinueLoop s => Ok (Next s)
  | BreakLoop s => Ok (Return (output s))
  end.

(** The loop has no bound of its own; [run_loop] iterates it at most [fuel]
    times and answers [None] when the fuel is spent before the loop ends. *)
Fixpoint run_loop (fuel : nat) (self : BrainfuckInterpreter) (s : locals)
  : option (result str) :=
  match fuel with
  | O => None
  | S fuel' =>
      match iteration self s with
      | Raise e => Some (Raise e)
      | Ok (Return out) => Some (Ok out)
      | Ok (Next s') => run_loop fuel' self s'
      end
  end.

(** The values of the local variables on entry of the loop. *)
Definition run_start : locals := mkLocals 0 0%nat 0%nat ∅ [].

(** [BrainfuckInterpreter.run], lines 95-144. *)
Definition run (fuel : nat) (self : BrainfuckInterpreter) : option (result str) :=
  run_loop fuel self run_start.

(** Tokenize a program text, build the interpreter and run it, as [from_file]
    and [main] do with the text of a file. *)
Definition interpret (fuel : nat) (program : str) (bits : Z)
  : option (result str) :=
  match tokens ← tokenize program; __init__ tokens bits with
  | Ok self => run fuel self
  | Raise e => Some (Raise e)
  end.

(** ** Bracket structure of a token sequence *)

(** Nesting depth after reading [tokens] at depth [d]; [None] when some
    [LOOP_END] is met at depth zero, that is, with no [LOOP_START] open. *)
Fixpoint depth_scan (d : nat) (tokens : list BrainfuckToken) : option nat :=
  match tokens with
  | [] => Some d
  | token :: tokens' =>
      match type token with
      | LOOP_START => depth_scan (S d) tokens'
      | LOOP_END =>
          match d with
          | O => None
          | S d' => depth_scan d' tokens'
          end
      | _ => depth_scan d tokens'
      end
  end.

Definition unmatched_loop_end (tokens : list BrainfuckToken) : Prop :=
  depth_scan 0 tokens = None.

Definition balanced (tokens : list BrainfuckToken) : Prop :=
  depth_scan 0 tokens = Some 0%nat.

(** No [LOOP_END] is unmatched and [n] [LOOP_START]s are still open at the end. *)
Definition open_at_end (tokens : list BrainfuckToken) (n : nat) : Prop :=
  depth_scan 0 tokens = Some n.

(** Index of the first [LOOP_END] that closes depth [d], in a sequence whose
    first token has index [pos]. *)
Fixpoint find_close (d pos : nat) (tokens : list BrainfuckToken) : option nat :=
  match tokens with
  | [] => None
  | token :: tokens' =>
      match type token with
      | LOOP_START => find_close (S d) (S pos) tokens'
      | LOOP_END =>
          match d with
          | O => Some pos
          | S d' => find_close d' (S pos) tokens'
          end
      | _ => find_close d (S pos) tokens'
      end
  end.

(** [(i, j)] is a matched pair: a [LOOP_START] at [i] and the [LOOP_END] at
    [j] that closes it. *)
Definition matched (tokens : list BrainfuckToken) (i j : nat) : Prop :=
  type <$> (tokens !! i) = Some LOOP_START ∧
  find_close 0 (S i) (drop (S i) tokens) = Some j.

Global Instance unmatched_loop_end_dec tokens : Decision (unmatched_loop_end tokens) :=
  decide (depth_scan 0 tokens = None).
Global Instance balanced_dec tokens : Decision (balanced tokens) :=
  decide (depth_scan 0 tokens = Some 0%nat).
Global Instance matched_dec tokens i j : Decision (matched tokens i j) :=
  decide (type <$> (tokens !! i) = Some LOOP_START ∧
          find_close 0 (S i) (drop (S i) tokens) = Some j).

(** ** Notions the properties are stated with *)

(** The value [data.setdefault(p, 0)] reads: zero for an address never written. *)
Definition cell (d : gmap Z Z) (p : Z) : Z := default 0 (d !! p).

(** The local variables after [data.setdefault(pointer, 0)]. *)
Definition defaulted (s : locals) : locals :=
  mkLocals (pointer s) (instr s) (S (steps s))
           (setdefault (data s) (pointer s) 0).2 (output s).

(** The states the loop of [run] passes through. *)
Inductive reachable (self : BrainfuckInterpreter) : locals → Prop :=
| reachable_start : reachable self run_start
| reachable_next s s' :
    reachable self s → iteration self s = Ok (Next s') → reachable self s'.

(** Every stored cell value lies in [[0, bw)]. *)
Definition in_range (bw : Z) (d : gmap Z Z) : Prop :=
  map_Forall (λ _ v, 0 ≤ v < bw) d.

(** The eight symbols of the language. *)
Definition recognized_symbols : list char :=
  ord <$> [">"; "<"; "+"; "-"; "."; ","; "["; "]"]%char.

(** The tokens [tokenize_loop] appends while it reads [program] from offset
    [idx] on, written without the accumulator. *)
Fixpoint tokens_from (idx : nat) (program : str) : list BrainfuckToken :=
  match program with
  | [] => []
  | c :: program' =>
      match token_enum_map !! c with
      | Some token_type => mkToken token_type idx :: tokens_from (S idx) program'
      | None => tokens_from (S idx) program'
      end
  end.

(** ** Notions for the further properties *)

(** What holds of the stack and the table of [_calc_jump_table] when it is
    about to read the token at index [instr] of [tokens]: the stack holds
    distinct indices of [LOOP_START]s already read; the table has keys among
    the indices already read and off the stack, and its entries come in pairs,
    a [LOOP_END] index [k] with an earlier [LOOP_START] index [v] and that [v]
    with [k + 1]. *)
Definition table_inv (tokens : list BrainfuckToken) (instr : nat)
    (jump_stack : list nat) (jump_table : gmap nat nat) : Prop :=
  Forall (λ k, (k < instr)%nat ∧ type <$> (tokens !! k) = Some LOOP_START)
         jump_stack ∧
  NoDup jump_stack ∧
  ∀ k v, jump_table !! k = Some v →
    (k < instr)%nat ∧ (k ∉ jump_stack) ∧
    ((type <$> (tokens !! k) = Some LOOP_END ∧ (v < k)%nat ∧
      type <$> (tokens !! v) = Some LOOP_START ∧
      jump_table !! v = Some (S k)) ∨
     (type <$> (tokens !! k) = Some LOOP_START ∧
      ∃ j, v = S j ∧ (k < j)%nat ∧
        type <$> (tokens !! j) = Some LOOP_END ∧
        jump_table !! j = Some k)).

(** [iterates self n s s']: [n] iterations of the loop of [run] lead from the
    local variables [s] to [s'], none of them raising or returning. *)
Inductive iterates (self : BrainfuckInterpreter) : nat → locals → locals → Prop :=
| iterates_O s : iterates self 0 s s
| iterates_S n s s' s'' :
    iteration self s = Ok (Next s') → iterates self n s' s'' →
    iterates self (S n) s s''.

(** ** Command line *)

(** What [main] can die of: an exception of the tokenizer or interpreter, or
    whatever [open] and [read] raise on a file that cannot be read as UTF-8
    text. *)
Inductive failure : Set :=
| CoreError (e : exn)
| FileError.

(** How a call of [main] stands when it is left: returned, left by an
    uncaught exception, or still inside a [run] when the bound on the
    iterations was reached. *)
Inductive status : Set :=
| Returned
| Failed (f : failure)
| OutOfFuel.

Section command_line.
(** The files: the decoded text of each path that can be opened and read. *)
Variable files : str → option str.

(** [BrainfuckInterpreter.from_file], lines 171-174, with
    [BrainfuckLexer.from_file], lines 73-77. *)
Definition from_file (filepath : str) (bits : Z) : failure + BrainfuckInterpreter :=
  match files filepath with
  | None => inl FileError
  | Some program_text =>
      match tokens ← tokenize program_text; __init__ tokens bits with
      | Ok self => inr self
      | Raise e => inl (CoreError e)
      end
  end.

(** [BrainfuckInterpreter.from_file(filepath).run()], as [main] calls it. *)
Definition run_file (fuel : nat) (filepath : str) : option (failure + str) :=
  match from_file filepath 8 with
  | inl f => Some (inl f)
  | inr self =>
      match run fuel self with
      | None => None
      | Some (Ok out) => Some (inr out)
      | Some (Raise e) => Some (inl (CoreError e))
      end
  end.

(** [print(f"-- {filepath} --")] writes this line. *)
Definition header (filepath : str) : str :=
  str_of_string "-- " ++ filepath ++ str_of_string " --" ++ [ord "010"].

(** The loop [for filepath in sys.argv[1:]] of [main], lines 183-188, with
    the text written to [sys.stdout] so far. The stream is taken to accept
    every character. *)
Fixpoint main_loop (fuel : nat) (filepaths : list str) (stdout : str)
  : str * status :=
  match filepaths with
  | [] => (stdout, Returned)
  | filepath :: filepaths' =>
      match run_file fuel filepath with
      | None => (stdout, OutOfFuel)
      | Some (inl f) => (stdout, Failed f)
      | Some (inr out) =>
          let stdout := stdout ++ header filepath in
          let stdout := stdout ++ out in
          match last out with
          | None => (stdout, Failed (CoreError IndexError))
          | Some c =>
              let stdout :=
                if bool_decide (c ≠ ord "010") then stdout ++ [9166; ord "010"]
                else stdout in
              main_loop fuel filepaths' stdout
          end
      end
  end.

(** [main], lines 177-188, on the argument vector [argv]: the text written
    to [sys.stdout] and how the call is left. *)
Definition main (fuel : nat) (argv : list str) : str * status :=
  if bool_decide (length argv ≤ 1)%nat then ([], Returned)
  else
    match argv with
    | [_; filepath] =>
        match run_file fuel filepath with
        | None => ([], OutOfFuel)
        | Some (inl f) => ([], Failed f)
        | Some (inr out) => (out, Returned)
        end
    | _ => main_loop fuel (drop 1 argv) []
    end.
End command_line.

(** ** Representations *)

(** [str(i)] of an [int]: its decimal digits, after a minus sign when it is
    negative. *)
Definition str_of_int (i : Z) : str := str_of_string (pretty i).

(** [str] of a member of [TokenEnum], which an f-string puts in for it: the
    class name, a dot, the member name. *)
Definition TokenEnum_str (t : TokenEnum) : str :=
  str_of_string "TokenEnum." ++
  str_of_string
    match t with
    | INCREMENT_POINTER => "INCREMENT_POINTER"
    | DECREMENT_POINTER => "DECREMENT_POINTER"
    | INCREMENT_BYTE => "INCREMENT_BYTE"
    | DECREMENT_BYTE => "DECREMENT_BYTE"
    | OUTPUT_BYTE => "OUTPUT_BYTE"
    | INPUT_BYTE => "INPUT_BYTE"
    | LOOP_START => "LOOP_START"
    | LOOP_END => "LOOP_END"
    end.

(** [BrainfuckToken.__repr__], lines 38-39, which [__str__] returns too. *)
Definition token_repr (tok : BrainfuckToken) : str :=
  str_of_string "<BrainfuckToken." ++ TokenEnum_str (type tok) ++
  str_of_string " pos[" ++ str_of_int (Z.of_nat (_char_idx tok)) ++
  str_of_string "]>".

(** [BrainfuckInterpreter.__repr__], lines 165-166, which [__str__] returns
    too. *)
Definition interpreter_repr (self : BrainfuckInterpreter) : str :=
  str_of_string "<BrainfuckInterpreter, " ++ str_of_int (_bits self) ++
  str_of_string "-bit>".

(** * Properties *)

(** ** Validation and jump-table construction against the nesting depth *)

Section brackets.
Implicit Types (tokens : list BrainfuckToken) (jump_stack : list nat).
Implicit Types (jump_table : gmap nat nat).

Lemma validate_loop_depth tokens : ∀ instr jump_stack,
  match depth_scan (length jump_stack) tokens with
  | None => validate_loop instr tokens jump_stack = Raise IndexError
  | Some d => ∃ jump_stack',
      validate_loop instr tokens jump_stack = Ok jump_stack' ∧
      length jump_stack' = d
  end.
Proof.
  induction tokens as [|token tokens IH]; intros instr jump_stack; simpl.
  - eauto.
  - destruct (type token) eqn:E; simpl; try apply IH.
    + apply (IH (S instr) (instr :: jump_stack)).
    + destruct jump_stack as [|top jump_stack]; simpl; [done|apply IH].
Qed.

Lemma calc_loop_depth tokens : ∀ instr jump_stack jump_table,
  match depth_scan (length jump_stack) tokens with
  | None => calc_loop instr tokens jump_stack jump_table = Raise IndexError
  | Some d => ∃ jump_stack' jump_table',
      calc_loop instr tokens jump_stack jump_table
        = Ok (jump_stack', jump_table') ∧
      length jump_stack' = d
  end.
Proof.
  induction tokens as [|token tokens IH]; intros instr jump_stack jump_table;
    simpl.
  - eauto.
  - destruct (type token) eqn:E; simpl; try apply IH.
    + apply (IH (S instr) (instr :: jump_stack)).
    + destruct jump_stack as [|top jump_stack]; simpl; [done|apply IH].
Qed.

Lemma validate_unmatched tokens :
  unmatched_loop_end tokens → validate tokens = Raise IndexError.
Proof.
  intros H. unfold validate.
  pose proof (validate_loop_depth tokens 0%nat []) as Hd; simpl in Hd.
  rewrite H in Hd. by rewrite Hd.
Qed.

Lemma validate_open tokens n :
  open_at_end tokens n → validate tokens = Ok (bool_decide (n = 0%nat)).
Proof.
  intros H. unfold validate.
  pose proof (validate_loop_depth tokens 0%nat []) as Hd; simpl in Hd.
  rewrite H in Hd. destruct Hd as (st & -> & Hlen); simpl.
  f_equal. destruct st; subst n; simpl; by repeat case_bool_decide.
Qed.

Lemma calc_open tokens n jump_table :
  open_at_end tokens n →
  ∃ jump_table', _calc_jump_table tokens jump_table = Ok jump_table'.
Proof.
  intros H. unfold _calc_jump_table.
  pose proof (calc_loop_depth tokens 0%nat [] jump_table) as Hd; simpl in Hd.
  rewrite H in Hd. destruct Hd as (st & jt & -> & _); simpl. eauto.
Qed.

Lemma init_open tokens n bits :
  open_at_end tokens n → ∃ self, __init__ tokens bits = Ok self.
Proof.
  intros H. unfold __init__. rewrite (validate_open _ _ H); simpl.
  destruct (calc_open tokens n ∅ H) as [jt ->]; simpl.
  case_bool_decide; eauto.
Qed.

Lemma init_unmatched tokens bits :
  unmatched_loop_end tokens → __init__ tokens bits = Raise IndexError.
Proof.
  intros H. unfold __init__. by rewrite (validate_unmatched _ H).
Qed.
End brackets.

(** ** The jump table of a matched pair *)

Section jump_table.
Implicit Types (tokens : list BrainfuckToken) (jump_stack : list nat).
Implicit Types (jump_table : gmap nat nat).

Lemma calc_loop_app tokens1 tokens2 : ∀ instr jump_stack jump_table,
  calc_loop instr (tokens1 ++ tokens2) jump_stack jump_table =
    '(jump_stack', jump_table') ← calc_loop instr tokens1 jump_stack jump_table;
    calc_loop (instr + length tokens1) tokens2 jump_stack' jump_table'.
Proof.
  induction tokens1 as [|token tokens1 IH]; intros instr jump_stack jump_table;
    simpl.
  - by rewrite Nat.add_0_r.
  - repeat case_decide; simpl;
      try (destruct jump_stack; simpl; [done|]);
      rewrite IH; replace (S instr + length tokens1)%nat
        with (instr + S (length tokens1))%nat by lia; reflexivity.
Qed.

(** Indices on the stack are indices of tokens already read. *)
Lemma calc_loop_stack_lt tokens : ∀ instr jump_stack jump_table jump_stack' jump_table',
  calc_loop instr tokens jump_stack jump_table = Ok (jump_stack', jump_table') →
  Forall (λ k, k < instr)%nat jump_stack →
  Forall (λ k, k < instr + length tokens)%nat jump_stack'.
Proof.
  induction tokens as [|token tokens IH];
    intros instr jump_stack jump_table jump_stack' jump_table' Hrun Hlt;
    simpl in *.
  - injection Hrun as <- <-. eapply Forall_impl; [done|]. simpl; lia.
  - replace (instr + S (length tokens))%nat
      with (S instr + length tokens)%nat by lia.
    destruct (type token) eqn:E; simpl in Hrun;
      try (eapply IH; [done|]; eapply Forall_impl; [done|]; simpl; lia).
    + eapply IH; [done|]. constructor; [lia|].
      eapply Forall_impl; [done|]. simpl; lia.
    + destruct jump_stack as [|top jump_stack]; simpl in Hrun; [done|].
      eapply IH; [done|]. apply Forall_cons in Hlt as [_ Hlt].
      eapply Forall_impl; [done|]. simpl; lia.
Qed.

(** The rest of the loop writes only at indices still to be read and at
    indices on the stack. *)
Lemma calc_loop_frame tokens : ∀ instr jump_stack jump_table jump_stack' jump_table' k,
  calc_loop instr tokens jump_stack jump_table = Ok (jump_stack', jump_table') →
  (k < instr)%nat → k ∉ jump_stack →
  jump_table' !! k = jump_table !! k.
Proof.
  induction tokens as [|token tokens IH];
    intros instr jump_stack jump_table jump_stack' jump_table' k Hrun Hk Hnotin;
    simpl in *.
  - by injection Hrun as <- <-.
  - destruct (type token) eqn:E; simpl in Hrun;
      try (eapply IH; [done|lia|done]).
    + eapply IH; [done|lia|]. apply not_elem_of_cons. split; [lia|done].
    + destruct jump_stack as [|top jump_stack]; simpl in Hrun; [done|].
      apply not_elem_of_cons in Hnotin as [Hne Hnotin].
      erewrite IH; [|done|lia|done].
      rewrite lookup_insert_ne by done. rewrite lookup_insert_ne by lia. done.
Qed.

(** Reading on from [instr] with [d] indices above [start] on the stack,
    the [LOOP_END] that closes depth [d] pops [start]. *)
Lemma calc_loop_find_close tokens :
  ∀ instr d above start below jump_table jump_stack' jump_table' j,
  find_close d instr tokens = Some j →
  length above = d →
  (start < instr)%nat → start ∉ below →
  Forall (λ k, k < instr)%nat below →
  calc_loop instr tokens (above ++ start :: below) jump_table
    = Ok (jump_stack', jump_table') →
  jump_table' !! start = Some (S j) ∧ jump_table' !! j = Some start.
Proof.
  induction tokens as [|token tokens IH];
    intros instr d above start below jump_table jump_stack' jump_table' j
      Hfind Hlen Hstart Hnotin Hbelow Hrun; simpl in *; [done|].
  assert (Forall (λ k, k < S instr)%nat below) as Hbelow'.
  { eapply Forall_impl; [done|]. simpl; lia. }
  destruct (type token) eqn:E; simpl in Hrun;
    try (eapply (IH (S instr) d above); eauto; lia).
  - eapply (IH (S instr) (S d) (instr :: above)); eauto; simpl; lia.
  - destruct d as [|d].
    + injection Hfind as <-. destruct above; [|done]. simpl in Hrun.
      split.
      * erewrite calc_loop_frame; [|done|lia|done].
        by rewrite lookup_insert_eq.
      * erewrite calc_loop_frame; [|done|lia|].
        -- rewrite lookup_insert_ne by lia. by rewrite lookup_insert_eq.
        -- intros Hin. rewrite Forall_forall in Hbelow.
           apply Hbelow in Hin. lia.
    + destruct above as [|top above]; [done|]. simpl in Hrun, Hlen.
      eapply (IH (S instr) d above); eauto; lia.
Qed.

Lemma calc_jump_table_matched tokens jump_table i j :
  matched tokens i j →
  _calc_jump_table tokens ∅ = Ok jump_table →
  jump_table !! i = Some (S j) ∧ jump_table !! j = Some i.
Proof.
  intros [Hi Hfind] Hcalc. unfold _calc_jump_table in Hcalc.
  destruct (tokens !! i) as [token|] eqn:Htok; [|done].
  injection Hi as Hi.
  pose proof (lookup_lt_Some _ _ _ Htok) as Hlen.
  rewrite <- (take_drop_middle tokens i token Htok) in Hcalc.
  rewrite calc_loop_app in Hcalc.
  destruct (calc_loop 0 (take i tokens) [] ∅) as [[st1 jt1]|] eqn:E1;
    simpl in Hcalc; [|done].
  apply calc_loop_stack_lt in E1; [|constructor].
  rewrite length_take_le in * by lia. simpl in E1.
  rewrite Hi in Hcalc. simpl in Hcalc.
  destruct (calc_loop (S i) (drop (S i) tokens) (i :: st1) jt1)
    as [[st2 jt2]|] eqn:E2; simpl in Hcalc; [|done].
  injection Hcalc as <-.
  eapply (calc_loop_find_close _ (S i) 0%nat [] i st1); eauto.
  - intros Hin. rewrite Forall_forall in E1. apply E1 in Hin. lia.
  - eapply Forall_impl; [done|]. simpl; lia.
Qed.
End jump_table.

(** C3. A token sequence with an unmatched [LOOP_END] makes [validate], and
    with it the constructor, raise (for every program text that tokenizes to
    it, whatever the fuel, so before any instruction runs); on a balanced
    sequence [validate] returns [True] and the constructor returns an
    interpreter. *)
Theorem construction_checks_loop_ends (tokens : list BrainfuckToken) (bits : Z) :
  (unmatched_loop_end tokens →
     validate tokens = Raise IndexError ∧
     __init__ tokens bits = Raise IndexError ∧
     ∀ program fuel, tokenize program = Ok tokens →
       interpret fuel program bits = Some (Raise IndexError)) ∧
  (balanced tokens →
     validate tokens = Ok true ∧
     ∃ self, __init__ tokens bits = Ok self).
Proof.
  split.
  - intros H. split; [by apply validate_unmatched|].
    split; [by apply init_unmatched|].
    intros program fuel Htok. unfold interpret. rewrite Htok. simpl.
    by rewrite init_unmatched.
  - intros H. split.
    + by rewrite (validate_open tokens 0%nat).
    + by apply (init_open tokens 0%nat).
Qed.

Lemma construction_checks_loop_ends_witness :
  (validate [mkToken LOOP_END 0] = Raise IndexError ∧
   __init__ [mkToken LOOP_END 0] 8 = Raise IndexError ∧
   ∀ program fuel, tokenize program = Ok [mkToken LOOP_END 0] →
     interpret fuel program 8 = Some (Raise IndexError)) ∧
  (validate [mkToken LOOP_START 0; mkToken INCREMENT_BYTE 1; mkToken LOOP_END 2]
     = Ok true ∧
   ∃ self,
     __init__ [mkToken LOOP_START 0; mkToken INCREMENT_BYTE 1; mkToken LOOP_END 2] 8
       = Ok self).
Proof.
  split.
  - apply (construction_checks_loop_ends [mkToken LOOP_END 0] 8). reflexivity.
  - apply (construction_checks_loop_ends
             [mkToken LOOP_START 0; mkToken INCREMENT_BYTE 1; mkToken LOOP_END 2] 8).
    reflexivity.
Defined.

(** C4. When no [LOOP_END] is unmatched but some [LOOP_START] is still open at
    the end of the sequence, [validate] returns [False] and the constructor
    nevertheless returns an interpreter. *)
Theorem trailing_loop_start_ignored (tokens : list BrainfuckToken) (n : nat) (bits : Z) :
  open_at_end tokens (S n) →
  validate tokens = Ok false ∧ ∃ self, __init__ tokens bits = Ok self.
Proof.
  intros H. split.
  - by rewrite (validate_open tokens (S n)).
  - by apply (init_open tokens (S n)).
Qed.

Lemma trailing_loop_start_ignored_witness :
  validate [mkToken LOOP_START 0; mkToken LOOP_START 1; mkToken LOOP_END 2]
    = Ok false ∧
  ∃ self,
    __init__ [mkToken LOOP_START 0; mkToken LOOP_START 1; mkToken LOOP_END 2] 8
      = Ok self.
Proof.
  apply (trailing_loop_start_ignored
           [mkToken LOOP_START 0; mkToken LOOP_START 1; mkToken LOOP_END 2] 0).
  reflexivity.
Defined.

(** C1, as the code has it. For a balanced token sequence and a matched pair
    [(i, j)], the constructor returns an interpreter whose jump table maps the
    [LOOP_START] index [i] to [j + 1] and the [LOOP_END] index [j] to [i]. *)
Theorem jump_table_of_matched_pair (tokens : list BrainfuckToken) (bits : Z) (i j : nat) :
  balanced tokens → matched tokens i j →
  ∃ self, __init__ tokens bits = Ok self ∧
    _jump_table self !! i = Some (S j) ∧ _jump_table self !! j = Some i.
Proof.
  intros Hbal Hm. unfold __init__.
  rewrite (validate_open tokens 0%nat Hbal); simpl.
  destruct (calc_open tokens 0%nat ∅ Hbal) as [jt Hjt]. rewrite Hjt; simpl.
  pose proof (calc_jump_table_matched tokens jt i j Hm Hjt) as Hpair.
  case_bool_decide; eauto.
Qed.

Lemma jump_table_of_matched_pair_witness :
  ∃ self,
    __init__ [mkToken LOOP_START 0; mkToken LOOP_START 1; mkToken LOOP_END 2;
              mkToken LOOP_END 3] 8 = Ok self ∧
    _jump_table self !! 0%nat = Some 4%nat ∧ _jump_table self !! 3%nat = Some 0%nat.
Proof.
  apply (jump_table_of_matched_pair
           [mkToken LOOP_START 0; mkToken LOOP_START 1; mkToken LOOP_END 2;
            mkToken LOOP_END 3] 8 0 3); [reflexivity | split; reflexivity].
Defined.

(** C1, as stated, fails on the program [[]]: the pair [(0, 1)] is matched, and
    the table holds [2] at index [0] and [0] at index [1], not [1] and [1]. *)
Lemma jump_table_of_matched_pair_counterexample :
  let tokens := [mkToken LOOP_START 0; mkToken LOOP_END 1] in
  balanced tokens ∧ matched tokens 0 1 ∧
  ∃ self, __init__ tokens 8 = Ok self ∧
    _jump_table self !! 0%nat = Some 2%nat ∧
    _jump_table self !! 1%nat = Some 0%nat ∧
    ¬ (_jump_table self !! 0%nat = Some 1%nat ∧
       _jump_table self !! 1%nat = Some (0 + 1)%nat).
Proof.
  simpl. split; [reflexivity|]. split; [split; reflexivity|].
  eexists. split; [reflexivity|]. simpl.
  split; [reflexivity|]. split; [reflexivity|].
  intros [H _]. vm_compute in H. discriminate.
Qed.

(** ** One iteration of the loop of [run], instruction by instruction *)

Section iteration.
Implicit Types (self : BrainfuckInterpreter) (s : locals) (d : gmap Z Z).

Lemma setdefault_fst d k v : (setdefault d k v).1 = default v (d !! k).
Proof. unfold setdefault. by destruct (d !! k). Qed.

Lemma setdefault_lookup d k v :
  (setdefault d k v).2 !! k = Some (default v (d !! k)).
Proof.
  unfold setdefault. destruct (d !! k) eqn:E; simpl; [done|].
  by rewrite lookup_insert_eq.
Qed.

Lemma setdefault_lookup_ne d k k' v :
  k ≠ k' → (setdefault d k v).2 !! k' = d !! k'.
Proof.
  intros Hne. unfold setdefault. destruct (d !! k) eqn:E; simpl; [done|].
  by rewrite lookup_insert_ne.
Qed.

Lemma setdefault_insert d k v : (setdefault d k v).2 = <[k := default v (d !! k)]> d.
Proof.
  unfold setdefault. destruct (d !! k) eqn:E; simpl; [|done].
  by rewrite insert_id.
Qed.

Lemma setdefault_dom d k v : dom (setdefault d k v).2 = {[k]} ∪ dom d.
Proof.
  unfold setdefault. destruct (d !! k) eqn:E; simpl.
  - apply (elem_of_dom_2 (D := gset Z)) in E.
    symmetry. apply subseteq_union_1_L. by apply singleton_subseteq_l.
  - by rewrite dom_insert_L.
Qed.

Lemma setdefault_twice d k v :
  setdefault (setdefault d k v).2 k v = (default v (d !! k), (setdefault d k v).2).
Proof.
  unfold setdefault at 1. by rewrite setdefault_lookup.
Qed.

Lemma getitem_setdefault d k v :
  getitem (setdefault d k v).2 k = Ok (default v (d !! k)).
Proof. unfold getitem. by rewrite setdefault_lookup. Qed.

Lemma getitem_insert d k v : getitem (<[k := v]> d) k = Ok v.
Proof. unfold getitem. by rewrite lookup_insert_eq. Qed.

Lemma iteration_break self s :
  (length (_tokens self) ≤ instr s)%nat →
  iteration self s = Ok (Return (output s)).
Proof.
  intros Hlen. unfold iteration, loop_body. simpl.
  by rewrite bool_decide_true.
Qed.

Ltac enter_body Htok Htype :=
  unfold iteration, loop_body, token_at; simpl;
  rewrite bool_decide_false by (apply lookup_lt_Some in Htok; lia);
  rewrite Htok; simpl; rewrite Htype; simpl;
  rewrite ?getitem_setdefault, ?getitem_insert, ?setdefault_twice; simpl;
  rewrite ?getitem_insert; simpl.

Lemma iteration_increment_pointer self s token :
  _tokens self !! instr s = Some token → type token = INCREMENT_POINTER →
  iteration self s
    = Ok (Next (set_instr (S (instr s)) (set_pointer (pointer s + 1) (defaulted s)))).
Proof. intros Htok Htype. by enter_body Htok Htype. Qed.

Lemma iteration_decrement_pointer self s token :
  _tokens self !! instr s = Some token → type token = DECREMENT_POINTER →
  iteration self s
    = Ok (Next (set_instr (S (instr s)) (set_pointer (pointer s - 1) (defaulted s)))).
Proof. intros Htok Htype. by enter_body Htok Htype. Qed.

Lemma iteration_increment_byte self s token :
  _tokens self !! instr s = Some token → type token = INCREMENT_BYTE →
  iteration self s
    = Ok (Next (set_instr (S (instr s))
        (set_data (<[pointer s :=
                      if decide (cell (data s) (pointer s) + 1 = _bitwidth self)
                      then 0 else cell (data s) (pointer s) + 1]> (data s))
           (defaulted s)))).
Proof.
  intros Htok Htype. enter_body Htok Htype. unfold cell, set_data, set_instr.
  rewrite setdefault_insert.
  case_bool_decide; case_decide; try done; simpl;
    by rewrite !insert_insert_eq.
Qed.

Lemma iteration_decrement_byte self s token :
  _tokens self !! instr s = Some token → type token = DECREMENT_BYTE →
  iteration self s
    = Ok (Next (set_instr (S (instr s))
        (set_data (<[pointer s :=
                      if decide (cell (data s) (pointer s) - 1 = -1)
                      then _bitwidth self - 1
                      else cell (data s) (pointer s) - 1]> (data s))
           (defaulted s)))).
Proof.
  intros Htok Htype. enter_body Htok Htype. unfold cell, set_data, set_instr.
  rewrite setdefault_insert.
  case_bool_decide; case_decide; try done; simpl;
    by rewrite !insert_insert_eq.
Qed.

Lemma iteration_output_byte self s token :
  _tokens self !! instr s = Some token → type token = OUTPUT_BYTE →
  iteration self s
    = c ← chr (cell (data s) (pointer s));
      Ok (Next (set_instr (S (instr s))
                  (set_output (output s ++ [c]) (defaulted s)))).
Proof.
  intros Htok Htype. enter_body Htok Htype. unfold cell.
  by destruct (chr _).
Qed.

Lemma iteration_input_byte self s token :
  _tokens self !! instr s = Some token → type token = INPUT_BYTE →
  iteration self s = Ok (Next (set_instr (S (instr s)) (defaulted s))).
Proof. intros Htok Htype. by enter_body Htok Htype. Qed.

Lemma iteration_loop_start self s token :
  _tokens self !! instr s = Some token → type token = LOOP_START →
  iteration self s
    = if decide (cell (data s) (pointer s) = 0) then
        target ← getitem (_jump_table self) (instr s);
        Ok (Next (set_instr target (defaulted s)))
      else Ok (Next (set_instr (S (instr s)) (defaulted s))).
Proof.
  intros Htok Htype. enter_body Htok Htype. unfold cell.
  case_bool_decide; case_decide; try done. by destruct (getitem _ _).
Qed.

Lemma iteration_loop_end self s token :
  _tokens self !! instr s = Some token → type token = LOOP_END →
  iteration self s
    = if decide (cell (data s) (pointer s) = 0) then
        Ok (Next (set_instr (S (instr s)) (defaulted s)))
      else
        target ← getitem (_jump_table self) (instr s);
        Ok (Next (set_instr target (defaulted s))).
Proof.
  intros Htok Htype. enter_body Htok Htype. unfold cell.
  case_bool_decide; case_decide; try done. by destruct (getitem _ _).
Qed.
End iteration.

(** ** Invariant of the loop of [run] *)

Section invariant.
Implicit Types (self : BrainfuckInterpreter) (s : locals) (d : gmap Z Z).

Lemma init_inv tokens bits self :
  __init__ tokens bits = Ok self →
  _tokens self = tokens ∧
  _calc_jump_table tokens ∅ = Ok (_jump_table self) ∧
  _bits self ∈ [8; 16; 32; 64] ∧
  _bitwidth self = 2 ^ _bits self ∧
  (bits ∈ [8; 16; 32; 64] → _bits self = bits) ∧
  (bits ∉ [8; 16; 32; 64] → _bits self = 8).
Proof.
  unfold __init__. intros H.
  destruct (validate tokens) as [b|]; simpl in H; [|done].
  destruct (_calc_jump_table tokens ∅) as [jt|]; simpl in H; [|done].
  case_bool_decide; injection H as <-; simpl;
    repeat split; try done; try set_solver.
Qed.

Lemma init_bitwidth_pos tokens bits self :
  __init__ tokens bits = Ok self → 0 < _bitwidth self.
Proof.
  intros H. apply init_inv in H as (_ & _ & Hb & -> & _).
  apply Z.pow_pos_nonneg; [lia|].
  set_unfold in Hb. lia.
Qed.

Lemma in_range_cell bw d p : 0 < bw → in_range bw d → 0 ≤ cell d p < bw.
Proof.
  intros Hbw Hd. unfold cell. destruct (d !! p) as [v|] eqn:E; simpl; [|lia].
  by apply (Hd p v).
Qed.

Lemma in_range_setdefault bw d p :
  0 < bw → in_range bw d → in_range bw (setdefault d p 0).2.
Proof.
  intros Hbw Hd. unfold setdefault. destruct (d !! p); simpl; [done|].
  apply map_Forall_insert_2; [lia|done].
Qed.

Lemma iteration_in_range self s s' :
  0 < _bitwidth self →
  in_range (_bitwidth self) (data s) →
  iteration self s = Ok (Next s') →
  in_range (_bitwidth self) (data s').
Proof.
  intros Hbw Hd Hit.
  pose proof (in_range_cell _ _ (pointer s) Hbw Hd) as Hc.
  pose proof (in_range_setdefault _ _ (pointer s) Hbw Hd) as Hd'.
  destruct (_tokens self !! instr s) as [token|] eqn:Htok.
  - destruct (type token) eqn:Htype.
    + rewrite (iteration_increment_pointer _ _ _ Htok Htype) in Hit.
      by injection Hit as <-.
    + rewrite (iteration_decrement_pointer _ _ _ Htok Htype) in Hit.
      by injection Hit as <-.
    + rewrite (iteration_increment_byte _ _ _ Htok Htype) in Hit.
      injection Hit as <-. simpl.
      apply map_Forall_insert_2; [|done]. case_decide; lia.
    + rewrite (iteration_decrement_byte _ _ _ Htok Htype) in Hit.
      injection Hit as <-. simpl.
      apply map_Forall_insert_2; [|done]. case_decide; lia.
    + rewrite (iteration_output_byte _ _ _ Htok Htype) in Hit.
      destruct (chr _); simpl in Hit; [|done]. by injection Hit as <-.
    + rewrite (iteration_input_byte _ _ _ Htok Htype) in Hit.
      by injection Hit as <-.
    + rewrite (iteration_loop_start _ _ _ Htok Htype) in Hit.
      case_decide; [destruct (getitem _ _); simpl in Hit; [|done]|];
        by injection Hit as <-.
    + rewrite (iteration_loop_end _ _ _ Htok Htype) in Hit.
      case_decide; [|destruct (getitem _ _); simpl in Hit; [|done]];
        by injection Hit as <-.
  - apply lookup_ge_None in Htok.
    by rewrite (iteration_break _ _ Htok) in Hit.
Qed.

Lemma reachable_in_range self s :
  0 < _bitwidth self → reachable self s → in_range (_bitwidth self) (data s).
Proof.
  intros Hbw Hs. induction Hs as [|s s' _ IH Hit].
  - apply map_Forall_empty.
  - by eapply iteration_in_range.
Qed.

(** The loop raises only what some iteration raises. *)
Lemma run_loop_raise self e : ∀ fuel s,
  reachable self s → run_loop fuel self s = Some (Raise e) →
  ∃ s', reachable self s' ∧ iteration self s' = Raise e.
Proof.
  induction fuel as [|fuel IH]; intros s Hs Hrun; simpl in Hrun; [done|].
  destruct (iteration self s) as [[s'|out]|e'] eqn:Hit.
  - eapply IH; [|done]. by eapply reachable_next.
  - done.
  - injection Hrun as ->. eauto.
Qed.

(** More fuel does not change an answer. *)
Lemma run_loop_more_fuel self r : ∀ fuel fuel' s,
  run_loop fuel self s = Some r → (fuel ≤ fuel')%nat →
  run_loop fuel' self s = Some r.
Proof.
  induction fuel as [|fuel IH]; intros fuel' s Hrun Hle; simpl in Hrun; [done|].
  destruct fuel' as [|fuel']; [lia|]. simpl.
  destruct (iteration self s) as [[s'|out]|e'] eqn:Hit; try done.
  apply IH; [done|lia].
Qed.
End invariant.

(** C6. In every state the loop of an interpreter built by the constructor
    passes through, each stored cell value lies in [[0, 2^bits)]; an
    [INCREMENT_BYTE] on a cell holding [2^bits - 1] stores [0] and a
    [DECREMENT_BYTE] on a cell holding [0] stores [2^bits - 1]. *)
Theorem cell_values_in_range (tokens : list BrainfuckToken) (bits : Z)
    (self : BrainfuckInterpreter) (s : locals) :
  __init__ tokens bits = Ok self → reachable self s →
  (∀ a v, data s !! a = Some v → 0 ≤ v < 2 ^ _bits self) ∧
  (∀ token, _tokens self !! instr s = Some token →
     (type token = INCREMENT_BYTE →
      cell (data s) (pointer s) = 2 ^ _bits self - 1 →
      ∃ s', iteration self s = Ok (Next s') ∧ data s' !! pointer s = Some 0) ∧
     (type token = DECREMENT_BYTE →
      cell (data s) (pointer s) = 0 →
      ∃ s', iteration self s = Ok (Next s') ∧
            data s' !! pointer s = Some (2 ^ _bits self - 1))).
Proof.
  intros Hinit Hs.
  pose proof (init_bitwidth_pos _ _ _ Hinit) as Hbw.
  destruct (init_inv _ _ _ Hinit) as (_ & _ & _ & Hpow & _).
  split.
  - intros a v Hav. rewrite <- Hpow.
    by apply (reachable_in_range self s Hbw Hs a v).
  - intros token Htok. split; intros Htype Hcell.
    + rewrite (iteration_increment_byte _ _ _ Htok Htype).
      eexists; split; [done|]. simpl. rewrite lookup_insert_eq.
      rewrite decide_True by lia. done.
    + rewrite (iteration_decrement_byte _ _ _ Htok Htype).
      eexists; split; [done|]. simpl. rewrite lookup_insert_eq.
      rewrite decide_True by lia. by rewrite Hpow.
Qed.

Lemma cell_values_in_range_witness :
  let self := mkInterpreter [mkToken DECREMENT_BYTE 0] ∅ 16 65536 in
  (∀ a v, data run_start !! a = Some v → 0 ≤ v < 2 ^ _bits self) ∧
  (∀ token, _tokens self !! instr run_start = Some token →
     (type token = INCREMENT_BYTE →
      cell (data run_start) (pointer run_start) = 2 ^ _bits self - 1 →
      ∃ s', iteration self run_start = Ok (Next s') ∧
            data s' !! pointer run_start = Some 0) ∧
     (type token = DECREMENT_BYTE →
      cell (data run_start) (pointer run_start) = 0 →
      ∃ s', iteration self run_start = Ok (Next s') ∧
            data s' !! pointer run_start = Some (2 ^ _bits self - 1))).
Proof.
  apply (cell_values_in_range [mkToken DECREMENT_BYTE 0] 16
           (mkInterpreter [mkToken DECREMENT_BYTE 0] ∅ 16 65536) run_start).
  - reflexivity.
  - apply reachable_start.
Defined.

(** C9, as the code has it. A [INCREMENT_POINTER] or [DECREMENT_POINTER] step
    moves the pointer by one and goes on to the next instruction; the cell
    store afterwards is the store [data.setdefault(pointer, 0)] leaves, taken
    at the pointer before the move: that address is added with value [0] when
    it was absent, no other address is added and no stored value changes. *)
Theorem pointer_move_step (self : BrainfuckInterpreter) (s : locals)
    (token : BrainfuckToken) :
  _tokens self !! instr s = Some token →
  type token = INCREMENT_POINTER ∨ type token = DECREMENT_POINTER →
  ∃ s', iteration self s = Ok (Next s') ∧
    pointer s' = (if decide (type token = INCREMENT_POINTER)
                  then pointer s + 1 else pointer s - 1) ∧
    instr s' = S (instr s) ∧
    output s' = output s ∧
    data s' = (setdefault (data s) (pointer s) 0).2 ∧
    dom (data s') = {[pointer s]} ∪ dom (data s) ∧
    (∀ a v, data s !! a = Some v → data s' !! a = Some v) ∧
    (∀ a, cell (data s') a = cell (data s) a).
Proof.
  intros Htok Htype.
  pose proof (setdefault_dom (data s) (pointer s) 0) as Hdom.
  assert (∀ a v, data s !! a = Some v →
                 (setdefault (data s) (pointer s) 0).2 !! a = Some v) as Hkeep.
  { intros a v Hav. destruct (decide (pointer s = a)) as [<-|Hne].
    - by rewrite setdefault_lookup, Hav.
    - by rewrite setdefault_lookup_ne. }
  assert (∀ a, cell (setdefault (data s) (pointer s) 0).2 a = cell (data s) a)
    as Hcell.
  { intros a. unfold cell. destruct (decide (pointer s = a)) as [<-|Hne].
    - by rewrite setdefault_lookup.
    - by rewrite setdefault_lookup_ne. }
  destruct Htype as [Htype|Htype].
  - rewrite (iteration_increment_pointer _ _ _ Htok Htype).
    eexists; split; [done|]. simpl. rewrite decide_True by done. done.
  - rewrite (iteration_decrement_pointer _ _ _ Htok Htype).
    eexists; split; [done|]. simpl. rewrite decide_False by congruence. done.
Qed.

Lemma pointer_move_step_witness :
  ∃ s', iteration (mkInterpreter [mkToken DECREMENT_POINTER 0] ∅ 8 256) run_start
          = Ok (Next s') ∧
    pointer s' = -1 ∧
    instr s' = 1%nat ∧
    output s' = [] ∧
    data s' = (setdefault ∅ 0 0).2 ∧
    dom (data s') = {[0]} ∪ dom (∅ : gmap Z Z) ∧
    (∀ a v, (∅ : gmap Z Z) !! a = Some v → data s' !! a = Some v) ∧
    (∀ a, cell (data s') a = cell ∅ a).
Proof.
  apply (pointer_move_step (mkInterpreter [mkToken DECREMENT_POINTER 0] ∅ 8 256)
           run_start (mkToken DECREMENT_POINTER 0)).
  - reflexivity.
  - right. reflexivity.
Defined.

(** C9, as stated, fails on the program [>] run from the start: the step adds
    address [0] to a store that was empty. *)
Lemma pointer_move_step_counterexample :
  let self := mkInterpreter [mkToken INCREMENT_POINTER 0] ∅ 8 256 in
  _tokens self !! instr run_start = Some (mkToken INCREMENT_POINTER 0) ∧
  ∃ s', iteration self run_start = Ok (Next s') ∧
    pointer s' = 1 ∧
    data run_start = ∅ ∧
    data s' = {[0 := 0]} ∧
    data s' ≠ data run_start ∧
    dom (data s') ≠ dom (data run_start).
Proof.
  simpl. split; [reflexivity|]. eexists. split; [reflexivity|]. simpl.
  split; [reflexivity|]. split; [reflexivity|]. split; [reflexivity|].
  split.
  - intros H. apply (f_equal (λ d : gmap Z Z, d !! 0)) in H. done.
  - intros H. apply (f_equal (λ X : gset Z, bool_decide (0 ∈ X))) in H. done.
Qed.

(** ** Bit-width selection *)

(** C8. Where the constructor returns for the default width, it returns for
    every requested width, with the same tokens and jump table: a request in
    {8, 16, 32, 64} sets the modulus to [2^bits]; any other request builds
    exactly the 8-bit interpreter, modulus 256.  Under a request of 16 a
    [DECREMENT_BYTE] on a cell holding 0 stores [2^16 - 1]; under an
    unsupported request it stores 255. *)
Theorem bit_width_selection (tokens : list BrainfuckToken) (bits : Z)
    (self8 : BrainfuckInterpreter) :
  __init__ tokens 8 = Ok self8 →
  ∃ self, __init__ tokens bits = Ok self ∧
    _tokens self = tokens ∧ _jump_table self = _jump_table self8 ∧
    (bits ∈ [8; 16; 32; 64] → _bits self = bits ∧ _bitwidth self = 2 ^ bits) ∧
    (bits ∉ [8; 16; 32; 64] →
       self = self8 ∧ _bits self = 8 ∧ _bitwidth self = 256) ∧
    (∀ s token, _tokens self !! instr s = Some token →
       type token = DECREMENT_BYTE → cell (data s) (pointer s) = 0 →
       ∃ s', iteration self s = Ok (Next s') ∧
         (bits = 16 → data s' !! pointer s = Some (2 ^ 16 - 1)) ∧
         (bits ∉ [8; 16; 32; 64] → data s' !! pointer s = Some (2 ^ 8 - 1))).
Proof.
  unfold __init__. intros H8.
  destruct (validate tokens) as [b|]; simpl in *; [|done].
  destruct (_calc_jump_table tokens ∅) as [jt|]; simpl in *; [|done].
  injection H8 as <-.
  assert (∀ self s token, _tokens self !! instr s = Some token →
            type token = DECREMENT_BYTE → cell (data s) (pointer s) = 0 →
            ∃ s', iteration self s = Ok (Next s') ∧
                  data s' !! pointer s = Some (_bitwidth self - 1)) as Hdec.
  { intros self s token Htok Htype Hcell.
    rewrite (iteration_decrement_byte _ _ _ Htok Htype).
    eexists; split; [done|]. simpl. rewrite lookup_insert_eq.
    by rewrite decide_True by lia. }
  case_bool_decide as Hbits; eexists; (split; [done|]); simpl.
  - split; [done|]. split; [done|]. split; [done|]. split; [done|].
    intros s token Htok Htype Hcell.
    destruct (Hdec (mkInterpreter tokens jt bits (2 ^ bits)) s token
                Htok Htype Hcell) as (s' & Hit & Hs').
    exists s'. split; [done|]. simpl in Hs'. split; [by intros ->|done].
  - split; [done|]. split; [done|]. split; [done|]. split; [done|].
    intros s token Htok Htype Hcell.
    destruct (Hdec (mkInterpreter tokens jt 8 256) s token
                Htok Htype Hcell) as (s' & Hit & Hs').
    exists s'. split; [done|]. simpl in Hs'. split; [|done].
    intros ->. exfalso. apply Hbits. set_solver.
Qed.

Lemma bit_width_selection_witness :
  ∃ self, __init__ [mkToken DECREMENT_BYTE 0] 7 = Ok self ∧
    _tokens self = [mkToken DECREMENT_BYTE 0] ∧
    _jump_table self = ∅ ∧
    (7 ∈ [8; 16; 32; 64] → _bits self = 7 ∧ _bitwidth self = 2 ^ 7) ∧
    (7 ∉ [8; 16; 32; 64] →
       self = mkInterpreter [mkToken DECREMENT_BYTE 0] ∅ 8 256 ∧
       _bits self = 8 ∧ _bitwidth self = 256) ∧
    (∀ s token, _tokens self !! instr s = Some token →
       type token = DECREMENT_BYTE → cell (data s) (pointer s) = 0 →
       ∃ s', iteration self s = Ok (Next s') ∧
         (7 = 16 → data s' !! pointer s = Some (2 ^ 16 - 1)) ∧
         (7 ∉ [8; 16; 32; 64] → data s' !! pointer s = Some (2 ^ 8 - 1))).
Proof.
  apply (bit_width_selection [mkToken DECREMENT_BYTE 0] 7
           (mkInterpreter [mkToken DECREMENT_BYTE 0] ∅ 8 256)).
  reflexivity.
Defined.

(** ** Exceptions during execution *)

Section raising.
Implicit Types (self : BrainfuckInterpreter) (s : locals).

Lemma chr_ok i : 0 ≤ i ≤ 1114111 → chr i = Ok i.
Proof. intros H. unfold chr. rewrite bool_decide_true; [done|lia]. Qed.

Lemma chr_raise i : ¬ (0 ≤ i ≤ 1114111) → chr i = Raise (chr_exn i).
Proof.
  intros H. unfold chr, chr_exn. rewrite bool_decide_false by lia.
  by case_bool_decide.
Qed.

Lemma chr_raise_inv i e :
  chr i = Raise e → ¬ (0 ≤ i ≤ 1114111) ∧ e = chr_exn i.
Proof.
  unfold chr, chr_exn. intros H.
  case_bool_decide; [done|]. split; [lia|].
  case_bool_decide; by injection H as <-.
Qed.

(** Only [chr] in an [OUTPUT_BYTE] step raises a [ValueError] or an
    [OverflowError]. *)
Lemma iteration_chr_error self s e :
  e = ValueError ∨ e = OverflowError →
  (iteration self s = Raise e ↔
   ∃ token, _tokens self !! instr s = Some token ∧
     type token = OUTPUT_BYTE ∧
     ¬ (0 ≤ cell (data s) (pointer s) ≤ 1114111) ∧
     e = chr_exn (cell (data s) (pointer s))).
Proof.
  intros He. split.
  - intros Hit. destruct (_tokens self !! instr s) as [token|] eqn:Htok.
    + exists token. split; [done|]. destruct (type token) eqn:Htype.
      * by rewrite (iteration_increment_pointer _ _ _ Htok Htype) in Hit.
      * by rewrite (iteration_decrement_pointer _ _ _ Htok Htype) in Hit.
      * by rewrite (iteration_increment_byte _ _ _ Htok Htype) in Hit.
      * by rewrite (iteration_decrement_byte _ _ _ Htok Htype) in Hit.
      * split; [done|].
        rewrite (iteration_output_byte _ _ _ Htok Htype) in Hit.
        destruct (chr (cell (data s) (pointer s))) as [c|e'] eqn:Hchr;
          simpl in Hit; [done|].
        injection Hit as ->. by apply chr_raise_inv.
      * by rewrite (iteration_input_byte _ _ _ Htok Htype) in Hit.
      * rewrite (iteration_loop_start _ _ _ Htok Htype) in Hit.
        case_decide; [|done]. unfold getitem in Hit.
        destruct (_jump_table self !! instr s); simpl in Hit; [done|].
        injection Hit as <-. by destruct He.
      * rewrite (iteration_loop_end _ _ _ Htok Htype) in Hit.
        case_decide; [done|]. unfold getitem in Hit.
        destruct (_jump_table self !! instr s); simpl in Hit; [done|].
        injection Hit as <-. by destruct He.
    + apply lookup_ge_None in Htok.
      by rewrite (iteration_break _ _ Htok) in Hit.
  - intros (token & Htok & Htype & Hc & ->).
    rewrite (iteration_output_byte _ _ _ Htok Htype).
    by rewrite chr_raise.
Qed.
End raising.

(** C10. An [OUTPUT_BYTE] step succeeds exactly when the cell value is a
    code point, that is, in [[0, 0x10FFFF]]; otherwise [chr] raises, a
    [ValueError] when the value fits a C [int] and an [OverflowError] when it
    does not.  An interpreter built with 8 or 16 bits never meets such a value,
    so neither a step nor [run] raises either exception; for 32 and for 64 bits
    the balanced program [-.] is built without error, reaches [OUTPUT_BYTE]
    with a cell value above [0x10FFFF], and [run] raises (an [OverflowError],
    the value being [2^bits - 1]). *)
Theorem output_code_points :
  (∀ self s token, _tokens self !! instr s = Some token →
     type token = OUTPUT_BYTE →
     (0 ≤ cell (data s) (pointer s) ≤ 1114111 →
      ∃ s', iteration self s = Ok (Next s') ∧
            output s' = output s ++ [cell (data s) (pointer s)]) ∧
     (¬ (0 ≤ cell (data s) (pointer s) ≤ 1114111) →
      iteration self s =
        Raise (if bool_decide (-2147483648 ≤ cell (data s) (pointer s)
                               ≤ 2147483647)
               then ValueError else OverflowError))) ∧
  (∀ tokens bits self, __init__ tokens bits = Ok self →
     _bits self = 8 ∨ _bits self = 16 →
     (∀ s, reachable self s →
        0 ≤ cell (data s) (pointer s) ≤ 1114111 ∧
        iteration self s ≠ Raise ValueError ∧
        iteration self s ≠ Raise OverflowError) ∧
     (∀ fuel, run fuel self ≠ Some (Raise ValueError) ∧
              run fuel self ≠ Some (Raise OverflowError))) ∧
  (∀ bits, bits = 32 ∨ bits = 64 →
     let tokens := [mkToken DECREMENT_BYTE 0; mkToken OUTPUT_BYTE 1] in
     balanced tokens ∧
     ∃ self, __init__ tokens bits = Ok self ∧
       (∃ s, reachable self s ∧
          type <$> (_tokens self !! instr s) = Some OUTPUT_BYTE ∧
          cell (data s) (pointer s) = 2 ^ bits - 1 ∧
          1114111 < cell (data s) (pointer s) ∧
          iteration self s = Raise OverflowError) ∧
       ∀ fuel, run (3 + fuel) self = Some (Raise OverflowError)).
Proof.
  split; [|split].
  - intros self s token Htok Htype. split; intros Hc.
    + rewrite (iteration_output_byte _ _ _ Htok Htype), chr_ok by done.
      eexists; split; [done|]. done.
    + rewrite (iteration_output_byte _ _ _ Htok Htype).
      by rewrite chr_raise.
  - intros tokens bits self Hinit Hbits.
    pose proof (init_bitwidth_pos _ _ _ Hinit) as Hbw.
    destruct (init_inv _ _ _ Hinit) as (_ & _ & _ & Hpow & _).
    assert (∀ s, reachable self s → 0 ≤ cell (data s) (pointer s) ≤ 1114111)
      as Hcp.
    { intros s Hs.
      pose proof (in_range_cell _ _ (pointer s) Hbw
                    (reachable_in_range self s Hbw Hs)) as Hc.
      rewrite Hpow in Hc. destruct Hbits as [Hb|Hb]; rewrite Hb in Hc; lia. }
    assert (∀ s e, e = ValueError ∨ e = OverflowError →
              reachable self s → iteration self s ≠ Raise e) as Hstep.
    { intros s e He Hs Hit.
      apply (iteration_chr_error self s e He) in Hit
        as (token & _ & _ & Hc & _).
      by apply Hc, Hcp. }
    split.
    + intros s Hs. split; [by apply Hcp|]. split; apply Hstep; auto.
    + intros fuel. split; intros Hrun;
        (apply run_loop_raise in Hrun as (s & Hs & Hit);
         [|apply reachable_start]);
        revert Hit; apply Hstep; auto.
  - intros bits Hbits tokens. split; [reflexivity|].
    destruct Hbits as [-> | ->].
    + eexists. split; [reflexivity|]. split.
      * exists (mkLocals 0 1 1 {[0 := 2 ^ 32 - 1]} []).
        split; [|repeat (split; [reflexivity|]); reflexivity].
        eapply reachable_next; [apply reachable_start|reflexivity].
      * intros fuel. reflexivity.
    + eexists. split; [reflexivity|]. split.
      * exists (mkLocals 0 1 1 {[0 := 2 ^ 64 - 1]} []).
        split; [|repeat (split; [reflexivity|]); reflexivity].
        eapply reachable_next; [apply reachable_start|reflexivity].
      * intros fuel. reflexivity.
Qed.

Lemma output_code_points_witness :
  let self16 := mkInterpreter [mkToken DECREMENT_BYTE 0; mkToken OUTPUT_BYTE 1]
                              ∅ 16 65536 in
  let s := mkLocals 0 1 1 {[0 := 65535]} [] in
  let s32 := mkLocals 0 1 1 {[0 := 4294967295]} [] in
  (∃ s', iteration self16 s = Ok (Next s') ∧
         output s' = output s ++ [cell (data s) (pointer s)]) ∧
  iteration self16 s32 =
    Raise (if bool_decide (-2147483648 ≤ cell (data s32) (pointer s32)
                           ≤ 2147483647)
           then ValueError else OverflowError) ∧
  (∀ fuel, run fuel self16 ≠ Some (Raise ValueError) ∧
           run fuel self16 ≠ Some (Raise OverflowError)) ∧
  (∃ self,
     __init__ [mkToken DECREMENT_BYTE 0; mkToken OUTPUT_BYTE 1] 32 = Ok self ∧
     ∀ fuel, run (3 + fuel) self = Some (Raise OverflowError)).
Proof.
  intros self16 s s32.
  destruct output_code_points as (Hstep & Hsmall & Hlarge).
  split; [|split; [|split]].
  - apply (proj1 (Hstep self16 s (mkToken OUTPUT_BYTE 1) eq_refl eq_refl)).
    vm_compute. split; discriminate.
  - apply (proj2 (Hstep self16 s32 (mkToken OUTPUT_BYTE 1) eq_refl eq_refl)).
    vm_compute. intros [_ H]. by apply H.
  - apply (Hsmall [mkToken DECREMENT_BYTE 0; mkToken OUTPUT_BYTE 1] 16 self16);
      [reflexivity|right; reflexivity].
  - destruct (Hlarge 32) as (_ & self & Hinit & _ & Hrun);
      [left; reflexivity|].
    exists self. split; [exact Hinit|exact Hrun].
Defined.

(** C2, evaluated on the program [[]. The token sequence has one open
    [LOOP_START]: [validate] answers [False], the constructor returns an
    interpreter whose jump table is empty, and the first iteration of [run]
    raises a [KeyError] at [self._jump_table[instr]]. *)
Theorem run_raises_after_construction :
  let tokens := [mkToken LOOP_START 0] in
  tokenize (str_of_string "[") = Ok tokens ∧
  validate tokens = Ok false ∧
  ∃ self, __init__ tokens 8 = Ok self ∧
    _jump_table self = ∅ ∧
    iteration self run_start = Raise KeyError ∧
    ∀ fuel, run (S fuel) self = Some (Raise KeyError).
Proof.
  simpl. split; [reflexivity|]. split; [reflexivity|].
  eexists. split; [reflexivity|]. split; [reflexivity|].
  split; [reflexivity|]. intros fuel. reflexivity.
Qed.

(** C5. The program [++>+++++[<+>-]<.] tokenizes to sixteen tokens, the 8-bit
    interpreter is built, and [run] ends after finitely many iterations with
    the output string of the single code point 7. *)
Theorem scenario_add_two_and_five :
  ∃ tokens self,
    tokenize (str_of_string "++>+++++[<+>-]<.") = Ok tokens ∧
    length tokens = 16%nat ∧
    __init__ tokens 8 = Ok self ∧
    ∃ fuel, ∀ fuel', (fuel ≤ fuel')%nat →
      run fuel' self = Some (Ok [7]) ∧ length [7] = 1%nat.
Proof.
  eexists _, _. split; [reflexivity|]. split; [reflexivity|].
  split; [reflexivity|]. exists 100%nat. intros fuel' Hle. split; [|done].
  eapply run_loop_more_fuel; [|exact Hle]. vm_compute. reflexivity.
Qed.

Lemma scenario_add_two_and_five_witness :
  ∃ tokens self fuel,
    tokenize (str_of_string "++>+++++[<+>-]<.") = Ok tokens ∧
    __init__ tokens 8 = Ok self ∧
    run fuel self = Some (Ok [7]).
Proof.
  destruct scenario_add_two_and_five
    as (tokens & self & Htok & _ & Hinit & fuel & Hrun).
  exists tokens, self, fuel. split; [exact Htok|]. split; [exact Hinit|].
  apply (Hrun fuel). lia.
Defined.

(** ** Tokenizer *)

Section tokenizer.
Implicit Types (program : str) (c : char) (tok : BrainfuckToken).

Lemma recognized_symbols_map c :
  c ∈ recognized_symbols ↔ is_Some (token_enum_map !! c).
Proof.
  split.
  - intros Hc. unfold recognized_symbols in Hc. simpl in Hc.
    repeat (apply elem_of_cons in Hc as [->|Hc]; [by eexists|]).
    by apply elem_of_nil in Hc.
  - intros [k Hk]. unfold token_enum_map in Hk.
    apply elem_of_list_to_map_2 in Hk. unfold recognized_symbols. simpl.
    repeat (apply elem_of_cons in Hk as [Hk|Hk];
            [injection Hk as -> _; set_solver|]).
    by apply elem_of_nil in Hk.
Qed.

Lemma whitespace_not_recognized c :
  c ∈ valid_whitespaces → token_enum_map !! c = None.
Proof.
  intros Hc. unfold valid_whitespaces in Hc.
  repeat (apply elem_of_cons in Hc as [->|Hc]; [done|]).
  by apply elem_of_nil in Hc.
Qed.

Lemma tokenize_loop_tokens_from program : ∀ idx tokens,
  tokenize_loop idx program tokens = Ok (tokens ++ tokens_from idx program).
Proof.
  induction program as [|c program IH]; intros idx tokens; simpl.
  - by rewrite app_nil_r.
  - case_bool_decide as Hws.
    { rewrite (whitespace_not_recognized c Hws). apply IH. }
    case_bool_decide as Hmap.
    { rewrite Hmap. apply IH. }
    unfold from_char, getitem.
    destruct (token_enum_map !! c) as [k|] eqn:E; [|done]. simpl.
    rewrite IH. by rewrite <- app_assoc.
Qed.

Lemma tokens_from_elem program : ∀ idx tok,
  tok ∈ tokens_from idx program ↔
  ∃ i c, program !! i = Some c ∧
    token_enum_map !! c = Some (type tok) ∧ _char_idx tok = (idx + i)%nat.
Proof.
  induction program as [|c program IH]; intros idx tok; simpl.
  - split; [by intros ?%elem_of_nil|]. by intros (i & c & ? & _).
  - assert (tok ∈ tokens_from (S idx) program ↔
            ∃ i c', (c :: program) !! S i = Some c' ∧
              token_enum_map !! c' = Some (type tok) ∧
              _char_idx tok = (idx + S i)%nat) as Htail.
    { rewrite IH. split; intros (i & c' & Hi & Hk & Hidx);
        exists i, c'; (split; [done|]); (split; [done|]); lia. }
    split.
    + intros Hin.
      destruct (token_enum_map !! c) as [k|] eqn:E.
      * apply elem_of_cons in Hin as [->|Hin].
        -- exists 0%nat, c. simpl. split; [done|]. split; [done|]. lia.
        -- apply Htail in Hin as (i & c' & ?). by exists (S i), c'.
      * apply Htail in Hin as (i & c' & ?). by exists (S i), c'.
    + intros (i & c' & Hi & Hk & Hidx). destruct i as [|i].
      * simpl in Hi. injection Hi as ->. rewrite Hk.
        apply elem_of_cons. left. destruct tok as [k n]; simpl in *.
        f_equal. lia.
      * assert (tok ∈ tokens_from (S idx) program) as Hin.
        { apply Htail. by exists i, c'. }
        destruct (token_enum_map !! c); [|done].
        apply elem_of_cons. by right.
Qed.

Lemma tokens_from_sorted program : ∀ idx,
  StronglySorted lt (_char_idx <$> tokens_from idx program).
Proof.
  induction program as [|c program IH]; intros idx; simpl; [constructor|].
  destruct (token_enum_map !! c) as [k|]; [|apply IH].
  simpl. constructor; [apply IH|].
  apply Forall_forall. intros n Hn.
  apply list_elem_of_fmap in Hn as (tok & -> & Htok).
  apply tokens_from_elem in Htok as (i & c' & _ & _ & ->). lia.
Qed.

Lemma tokens_from_length program : ∀ idx,
  length (tokens_from idx program)
    = length (filter (λ c, c ∈ recognized_symbols) program).
Proof.
  induction program as [|c program IH]; intros idx; [done|].
  rewrite filter_cons. cbn [tokens_from]. destruct (token_enum_map !! c) as [k|] eqn:E.
  - rewrite decide_True by (apply recognized_symbols_map; eauto).
    simpl. by rewrite IH.
  - rewrite decide_False; [apply IH|].
    rewrite recognized_symbols_map, E. by intros [? ?].
Qed.
End tokenizer.

(** C7. [tokenize] never raises.  The offsets of its tokens are strictly
    increasing; every token sits at the offset of a character that is one of
    the eight symbols and has the kind [token_enum_map] gives that symbol;
    every occurrence of one of the eight symbols has its token; so there are as
    many tokens as such characters, and a whitespace character or any other
    character outside the eight symbols has none. *)
Theorem tokenize_recognized_symbols (program : str) :
  ∃ tokens, tokenize program = Ok tokens ∧
    StronglySorted lt (_char_idx <$> tokens) ∧
    (∀ tok, tok ∈ tokens →
       ∃ c, program !! _char_idx tok = Some c ∧ c ∈ recognized_symbols ∧
            token_enum_map !! c = Some (type tok)) ∧
    (∀ idx c, program !! idx = Some c → c ∈ recognized_symbols →
       ∃ tok, tok ∈ tokens ∧ _char_idx tok = idx) ∧
    (∀ idx c, program !! idx = Some c →
       c ∈ valid_whitespaces ∨ c ∉ recognized_symbols →
       ∀ tok, tok ∈ tokens → _char_idx tok ≠ idx) ∧
    length tokens = length (filter (λ c, c ∈ recognized_symbols) program).
Proof.
  exists (tokens_from 0 program). unfold tokenize.
  rewrite tokenize_loop_tokens_from. simpl. split; [done|].
  split; [apply tokens_from_sorted|].
  assert (∀ tok, tok ∈ tokens_from 0 program →
            ∃ c, program !! _char_idx tok = Some c ∧ c ∈ recognized_symbols ∧
                 token_enum_map !! c = Some (type tok)) as Hfrom.
  { intros tok (i & c & Hi & Hk & Hidx)%tokens_from_elem.
    simpl in Hidx. subst i. exists c. split; [done|]. split; [|done].
    apply recognized_symbols_map. eauto. }
  split; [exact Hfrom|]. split; [|split; [|apply tokens_from_length]].
  - intros idx c Hidx [k Hk]%recognized_symbols_map.
    exists (mkToken k idx). split; [|done].
    apply tokens_from_elem. by exists idx, c.
  - intros idx c Hidx Hc tok Htok <-.
    destruct (Hfrom tok Htok) as (c' & Hc' & Hrec & Hk).
    rewrite Hidx in Hc'. injection Hc' as <-.
    destruct Hc as [Hws|Hnot]; [|done].
    apply whitespace_not_recognized in Hws. congruence.
Qed.

Lemma tokenize_recognized_symbols_witness :
  ∃ tokens, tokenize (str_of_string "a+ ]") = Ok tokens ∧
    (∃ tok, tok ∈ tokens ∧ _char_idx tok = 3%nat) ∧
    (∀ tok, tok ∈ tokens → _char_idx tok ≠ 2%nat).
Proof.
  destruct (tokenize_recognized_symbols (str_of_string "a+ ]"))
    as (tokens & Htok & _ & _ & Hrec & Hskip & _).
  exists tokens. split; [exact Htok|]. split.
  - apply (Hrec 3%nat (ord "]")); [reflexivity|].
    vm_compute. repeat constructor.
  - apply (Hskip 2%nat (ord " ")); [reflexivity|].
    left. vm_compute. repeat constructor.
Defined.

(** ** Execution of balanced programs *)

Section coverage.
Implicit Types (tokens : list BrainfuckToken) (jump_stack : list nat).
Implicit Types (jump_table : gmap nat nat).

Lemma calc_loop_keeps tokens : ∀ instr jump_stack jump_table jump_stack' jump_table' k,
  calc_loop instr tokens jump_stack jump_table = Ok (jump_stack', jump_table') →
  is_Some (jump_table !! k) → is_Some (jump_table' !! k).
Proof.
  induction tokens as [|token tokens IH];
    intros instr jump_stack jump_table jump_stack' jump_table' k Hrun Hk;
    simpl in Hrun.
  - by injection Hrun as <- <-.
  - destruct (type token) eqn:E; simpl in Hrun; try (by eapply IH).
    destruct jump_stack as [|top jump_stack]; simpl in Hrun; [done|].
    eapply IH; [done|]. rewrite !lookup_insert_is_Some'. auto.
Qed.

(** An index on the stack stays there or gets its entry. *)
Lemma calc_loop_stack_covered tokens : ∀ instr jump_stack jump_table jump_stack' jump_table' k,
  calc_loop instr tokens jump_stack jump_table = Ok (jump_stack', jump_table') →
  k ∈ jump_stack → k ∈ jump_stack' ∨ is_Some (jump_table' !! k).
Proof.
  induction tokens as [|token tokens IH];
    intros instr jump_stack jump_table jump_stack' jump_table' k Hrun Hk;
    simpl in Hrun.
  - injection Hrun as <- <-. by left.
  - destruct (type token) eqn:E; simpl in Hrun; try (by eapply IH).
    + eapply IH; [done|]. apply elem_of_cons. by right.
    + destruct jump_stack as [|top jump_stack]; simpl in Hrun; [done|].
      apply elem_of_cons in Hk as [->|Hk]; [|by eapply IH].
      right. eapply calc_loop_keeps; [done|].
      rewrite lookup_insert_eq. by eexists.
Qed.

Lemma calc_loop_covers tokens : ∀ instr jump_stack jump_table jump_stack' jump_table' i token,
  calc_loop instr tokens jump_stack jump_table = Ok (jump_stack', jump_table') →
  tokens !! i = Some token →
  (type token = LOOP_START →
     (instr + i)%nat ∈ jump_stack' ∨ is_Some (jump_table' !! (instr + i)%nat)) ∧
  (type token = LOOP_END → is_Some (jump_table' !! (instr + i)%nat)).
Proof.
  induction tokens as [|token0 tokens IH];
    intros instr jump_stack jump_table jump_stack' jump_table' i token Hrun Hi;
    [done|].
  destruct i as [|i].
  - simpl in Hi. injection Hi as ->. rewrite Nat.add_0_r. simpl in Hrun.
    split; intros Htype; rewrite Htype in Hrun; simpl in Hrun.
    + eapply calc_loop_stack_covered; [done|]. apply elem_of_cons. by left.
    + destruct jump_stack as [|top jump_stack]; simpl in Hrun; [done|].
      eapply calc_loop_keeps; [done|].
      rewrite !lookup_insert_is_Some'. right. left. done.
  - simpl in Hi. replace (instr + S i)%nat with (S instr + i)%nat by lia.
    simpl in Hrun.
    destruct (type token0) eqn:E; simpl in Hrun; try (by eapply IH).
    destruct jump_stack as [|top jump_stack]; simpl in Hrun; [done|].
    by eapply IH.
Qed.

(** The jump table of a balanced sequence has an entry at every bracket. *)
Lemma calc_jump_table_complete tokens jump_table i token :
  balanced tokens →
  _calc_jump_table tokens ∅ = Ok jump_table →
  tokens !! i = Some token →
  type token = LOOP_START ∨ type token = LOOP_END →
  is_Some (jump_table !! i).
Proof.
  intros Hbal Hcalc Hi Htype. unfold _calc_jump_table in Hcalc.
  pose proof (calc_loop_depth tokens 0%nat [] ∅) as Hd. simpl in Hd.
  rewrite Hbal in Hd. destruct Hd as (st & jt & Hrun & Hlen).
  rewrite Hrun in Hcalc. simpl in Hcalc. injection Hcalc as <-.
  destruct st; [|done].
  destruct (calc_loop_covers _ _ _ _ _ _ i token Hrun Hi) as [Hs He].
  destruct Htype as [Htype|Htype].
  - destruct (Hs Htype) as [Hin|Hsome]; [|done]. by apply elem_of_nil in Hin.
  - by apply He.
Qed.
End coverage.

(** X24. On a balanced token sequence with 8 or 16 bits, no iteration of the
    loop of [run] raises, so [run] never raises: it returns its output or goes
    on for ever. *)
Theorem run_never_raises_balanced (tokens : list BrainfuckToken) (bits : Z)
    (self : BrainfuckInterpreter) :
  balanced tokens → __init__ tokens bits = Ok self →
  _bits self = 8 ∨ _bits self = 16 →
  (∀ s e, reachable self s → iteration self s ≠ Raise e) ∧
  (∀ fuel e, run fuel self ≠ Some (Raise e)).
Proof.
  intros Hbal Hinit Hbits.
  pose proof (init_bitwidth_pos _ _ _ Hinit) as Hbw.
  destruct (init_inv _ _ _ Hinit) as (Htoks & Hjt & _ & Hpow & _).
  assert (∀ s e, reachable self s → iteration self s ≠ Raise e) as Hstep.
  { intros s e Hs Hit.
    pose proof (in_range_cell _ _ (pointer s) Hbw
                  (reachable_in_range self s Hbw Hs)) as Hc.
    rewrite Hpow in Hc.
    assert (0 ≤ cell (data s) (pointer s) ≤ 1114111) as Hcp.
    { destruct Hbits as [Hb|Hb]; rewrite Hb in Hc; lia. }
    destruct (_tokens self !! instr s) as [token|] eqn:Htok.
    - assert (type token = LOOP_START ∨ type token = LOOP_END →
              ∃ target, getitem (_jump_table self) (instr s) = Ok target)
        as Hjump.
      { intros Htype. rewrite Htoks in Htok.
        destruct (calc_jump_table_complete _ _ _ _ Hbal Hjt Htok Htype)
          as [target Ht].
        exists target. unfold getitem. by rewrite Ht. }
      destruct (type token) eqn:Htype.
      + by rewrite (iteration_increment_pointer _ _ _ Htok Htype) in Hit.
      + by rewrite (iteration_decrement_pointer _ _ _ Htok Htype) in Hit.
      + by rewrite (iteration_increment_byte _ _ _ Htok Htype) in Hit.
      + by rewrite (iteration_decrement_byte _ _ _ Htok Htype) in Hit.
      + rewrite (iteration_output_byte _ _ _ Htok Htype) in Hit.
        by rewrite chr_ok in Hit.
      + by rewrite (iteration_input_byte _ _ _ Htok Htype) in Hit.
      + rewrite (iteration_loop_start _ _ _ Htok Htype) in Hit.
        destruct Hjump as [target Ht]; [by left|]. rewrite Ht in Hit.
        by case_decide.
      + rewrite (iteration_loop_end _ _ _ Htok Htype) in Hit.
        destruct Hjump as [target Ht]; [by right|]. rewrite Ht in Hit.
        by case_decide.
    - apply lookup_ge_None in Htok.
      by rewrite (iteration_break _ _ Htok) in Hit. }
  split; [exact Hstep|].
  intros fuel e Hrun.
  apply run_loop_raise in Hrun as (s & Hs & Hit); [|apply reachable_start].
  by apply (Hstep s e).
Qed.

Lemma run_never_raises_balanced_witness :
  let tokens := [mkToken LOOP_START 0; mkToken OUTPUT_BYTE 1; mkToken LOOP_END 2] in
  let self := mkInterpreter tokens (<[0%nat := 3%nat]> (<[2%nat := 0%nat]> ∅))
                            8 256 in
  (∀ s e, reachable self s → iteration self s ≠ Raise e) ∧
  (∀ fuel e, run fuel self ≠ Some (Raise e)).
Proof.
  apply (run_never_raises_balanced
           [mkToken LOOP_START 0; mkToken OUTPUT_BYTE 1; mkToken LOOP_END 2] 8).
  - reflexivity.
  - reflexivity.
  - left. reflexivity.
Defined.

(** ** What a matched pair encloses *)

Lemma find_close_between (tokens : list BrainfuckToken) : ∀ d pos j,
  find_close d pos tokens = Some j →
  ∃ n, j = (pos + n)%nat ∧
    depth_scan d (take n tokens) = Some 0%nat ∧
    type <$> (tokens !! n) = Some LOOP_END.
Proof.
  induction tokens as [|token tokens IH]; intros d pos j Hfind;
    simpl in Hfind; [done|].
  assert (∀ d', find_close d' (S pos) tokens = Some j →
            (∀ l, depth_scan d (token :: l) = depth_scan d' l) →
            ∃ n, j = (pos + n)%nat ∧
              depth_scan d (take n (token :: tokens)) = Some 0%nat ∧
              type <$> ((token :: tokens) !! n) = Some LOOP_END) as Hstep.
  { intros d' Hfind' Hscan.
    destruct (IH d' (S pos) j Hfind') as (n & -> & Hn & Hend).
    exists (S n). split; [lia|]. split; [|done].
    rewrite firstn_cons. by rewrite Hscan. }
  destruct (type token) eqn:E;
    try (apply (Hstep d Hfind); intros l; simpl; by rewrite E).
  - apply (Hstep (S d) Hfind). intros l; simpl; by rewrite E.
  - destruct d as [|d].
    + injection Hfind as <-. exists 0%nat. split; [lia|]. split; [done|].
      simpl. by rewrite E.
    + apply (Hstep d Hfind). intros l; simpl; by rewrite E.
Qed.

(** The [LOOP_END] of a matched pair lies after its [LOOP_START], and the
    tokens between the two are balanced. *)
Lemma matched_between (tokens : list BrainfuckToken) (i j : nat) :
  matched tokens i j →
  (i < j)%nat ∧
  type <$> (tokens !! j) = Some LOOP_END ∧
  balanced (take (j - S i) (drop (S i) tokens)).
Proof.
  intros [_ Hfind].
  apply find_close_between in Hfind as (n & -> & Hn & Hend).
  split; [lia|]. rewrite lookup_drop in Hend. split; [done|].
  by replace (S i + n - S i)%nat with n by lia.
Qed.

(** * Further properties *)

(** ** When construction fails, and what [validate] answers *)

(** X1. The constructor raises exactly on a token sequence with an unmatched
    [LOOP_END], and then an [IndexError]; on every other sequence it returns
    an interpreter, whatever the requested bit-width. *)
Theorem init_raises_iff (tokens : list BrainfuckToken) (bits : Z) :
  (∀ e, __init__ tokens bits = Raise e ↔
        e = IndexError ∧ unmatched_loop_end tokens) ∧
  ((∃ self, __init__ tokens bits = Ok self) ↔ ¬ unmatched_loop_end tokens).
Proof.
  unfold unmatched_loop_end.
  destruct (depth_scan 0 tokens) as [n|] eqn:Hd.
  - destruct (init_open tokens n bits Hd) as [self Hself]. rewrite Hself.
    split.
    + intros e. split; [done|]. by intros [_ ?].
    + split; [done|]. eauto.
  - rewrite (init_unmatched tokens bits Hd). split.
    + intros e. split; [|by intros [-> _]].
      intros He. by injection He as <-.
    + split; [by intros [self ?]|]. by intros Hn.
Qed.

(** X2. [validate] answers [True] exactly on the balanced token sequences,
    answers [False] exactly when no [LOOP_END] is unmatched and some
    [LOOP_START] is left open, and raises nothing but an [IndexError]. *)
Theorem validate_verdict (tokens : list BrainfuckToken) :
  (validate tokens = Ok true ↔ balanced tokens) ∧
  (validate tokens = Ok false ↔ ∃ n, open_at_end tokens (S n)) ∧
  (∀ e, validate tokens = Raise e ↔
        e = IndexError ∧ unmatched_loop_end tokens).
Proof.
  unfold balanced, open_at_end, unmatched_loop_end.
  destruct (depth_scan 0 tokens) as [n|] eqn:Hd.
  - rewrite (validate_open tokens n Hd). destruct n as [|n]; simpl.
    + split; [done|]. split; [|split; [done|by intros [_ ?]]].
      split; [done|]. by intros [n ?].
    + split; [split; [done|by intros ?]|].
      split; [|split; [done|by intros [_ ?]]].
      split; [|done]. intros _. by exists n.
  - rewrite (validate_unmatched tokens Hd).
    split; [done|]. split; [split; [done|by intros [n ?]]|].
    intros e. split; [|by intros [-> _]]. intros He. by injection He as <-.
Qed.

(** ** The jump table is the matching relation *)

Section table.
Implicit Types (tokens : list BrainfuckToken) (jump_stack : list nat).
Implicit Types (jump_table : gmap nat nat).

Lemma table_inv_start tokens : table_inv tokens 0 [] ∅.
Proof.
  split; [constructor|]. split; [constructor|]. intros k v Hk.
  by rewrite lookup_empty in Hk.
Qed.

Lemma table_inv_skip tokens instr jump_stack jump_table :
  table_inv tokens instr jump_stack jump_table →
  table_inv tokens (S instr) jump_stack jump_table.
Proof.
  intros (Hst & Hnd & Hjt). split; [|split; [done|]].
  - eapply Forall_impl; [done|]. simpl. intros k [? ?]. split; [lia|done].
  - intros k v Hk. destruct (Hjt k v Hk) as (? & ? & ?).
    split; [lia|]. done.
Qed.

Lemma table_inv_push tokens instr jump_stack jump_table :
  type <$> (tokens !! instr) = Some LOOP_START →
  table_inv tokens instr jump_stack jump_table →
  table_inv tokens (S instr) (instr :: jump_stack) jump_table.
Proof.
  intros Htype (Hst & Hnd & Hjt).
  assert (instr ∉ jump_stack) as Hfresh.
  { intros Hin. rewrite Forall_forall in Hst. apply Hst in Hin. lia. }
  split; [|split].
  - constructor; [split; [lia|done]|].
    eapply Forall_impl; [done|]. simpl. intros k [? ?]. split; [lia|done].
  - by constructor.
  - intros k v Hk. destruct (Hjt k v Hk) as (Hlt & Hnotin & Hpair).
    split; [lia|]. split; [|done].
    apply not_elem_of_cons. split; [lia|done].
Qed.

Lemma table_inv_pop tokens instr start_loop jump_stack jump_table :
  type <$> (tokens !! instr) = Some LOOP_END →
  table_inv tokens instr (start_loop :: jump_stack) jump_table →
  table_inv tokens (S instr) jump_stack
    (<[start_loop := S instr]> (<[instr := start_loop]> jump_table)).
Proof.
  intros Htype (Hst & Hnd & Hjt).
  apply Forall_cons in Hst as [[Hlt Hstart] Hst].
  apply NoDup_cons in Hnd as [Hfresh Hnd].
  assert (∀ k, is_Some (jump_table !! k) → k ≠ instr ∧ k ≠ start_loop)
    as Hold.
  { intros k [v Hk]. destruct (Hjt k v Hk) as (? & Hnotin & _).
    split; [lia|]. intros ->. apply Hnotin. apply elem_of_cons. by left. }
  split; [|split; [done|]].
  - eapply Forall_impl; [done|]. simpl. intros k [? ?]. split; [lia|done].
  - intros k v Hk.
    destruct (decide (k = start_loop)) as [->|Hne1].
    { rewrite lookup_insert_eq in Hk. injection Hk as <-.
      split; [lia|]. split; [done|]. right. split; [done|].
      exists instr. split; [done|]. split; [done|]. split; [done|].
      rewrite lookup_insert_ne by lia. by rewrite lookup_insert_eq. }
    rewrite lookup_insert_ne in Hk by done.
    destruct (decide (k = instr)) as [->|Hne2].
    { rewrite lookup_insert_eq in Hk. injection Hk as <-.
      split; [lia|]. split.
      - intros Hin. rewrite Forall_forall in Hst. apply Hst in Hin. lia.
      - left. split; [done|]. split; [done|]. split; [done|].
        by rewrite lookup_insert_eq. }
    rewrite lookup_insert_ne in Hk by done.
    destruct (Hjt k v Hk) as (Hklt & Hnotin & Hpair).
    split; [lia|]. split.
    { intros Hin. apply Hnotin. apply elem_of_cons. by right. }
    destruct Hpair as [(Hend & Hvk & Hvs & Hv)|(Hs & j & -> & Hkj & Hend & Hj)].
    + left. split; [done|]. split; [done|]. split; [done|].
      destruct (Hold v) as [? ?]; [by eexists|].
      by rewrite !lookup_insert_ne.
    + right. split; [done|]. exists j. split; [done|]. split; [done|].
      split; [done|]. destruct (Hold j) as [? ?]; [by eexists|].
      by rewrite !lookup_insert_ne.
Qed.

Lemma calc_loop_table_inv all tokens : ∀ instr jump_stack jump_table jump_stack' jump_table',
  drop instr all = tokens →
  table_inv all instr jump_stack jump_table →
  calc_loop instr tokens jump_stack jump_table = Ok (jump_stack', jump_table') →
  table_inv all (instr + length tokens) jump_stack' jump_table'.
Proof.
  induction tokens as [|token tokens IH];
    intros instr jump_stack jump_table jump_stack' jump_table' Hdrop Hinv Hrun;
    simpl in Hrun.
  - injection Hrun as <- <-. simpl. by rewrite Nat.add_0_r.
  - assert (all !! instr = Some token) as Htok.
    { rewrite <- (Nat.add_0_r instr), <- lookup_drop, Hdrop. done. }
    assert (drop (S instr) all = tokens) as Hdrop'.
    { replace (S instr) with (instr + 1)%nat by lia.
      by rewrite <- drop_drop, Hdrop. }
    replace (instr + length (token :: tokens))%nat
      with (S instr + length tokens)%nat by (simpl; lia).
    destruct (type token) eqn:E; simpl in Hrun;
      try (eapply IH; [done| |done]; by apply table_inv_skip).
    + eapply IH; [done| |done]. apply table_inv_push; [|done].
      by rewrite Htok; simpl; rewrite E.
    + destruct jump_stack as [|top jump_stack]; simpl in Hrun; [done|].
      eapply IH; [done| |done]. apply table_inv_pop; [|done].
      by rewrite Htok; simpl; rewrite E.
Qed.

Lemma calc_jump_table_inv tokens jump_table :
  _calc_jump_table tokens ∅ = Ok jump_table →
  ∃ jump_stack, table_inv tokens (length tokens) jump_stack jump_table.
Proof.
  unfold _calc_jump_table. intros Hcalc.
  destruct (calc_loop 0 tokens [] ∅) as [[st jt]|] eqn:Hrun;
    simpl in Hcalc; [|done].
  injection Hcalc as <-. exists st.
  apply (calc_loop_table_inv tokens tokens 0 [] ∅ st jt);
    [done|apply table_inv_start|done].
Qed.

(** A [LOOP_START] that nothing closes stays on the stack, without entry. *)
Lemma calc_loop_unclosed tokens :
  ∀ instr d above start below jump_table jump_stack' jump_table',
  find_close d instr tokens = None →
  length above = d →
  (start < instr)%nat → start ∉ above →
  calc_loop instr tokens (above ++ start :: below) jump_table
    = Ok (jump_stack', jump_table') →
  jump_table' !! start = jump_table !! start.
Proof.
  induction tokens as [|token tokens IH];
    intros instr d above start below jump_table jump_stack' jump_table'
      Hfind Hlen Hstart Hnotin Hrun; simpl in *.
  - by injection Hrun as <- <-.
  - destruct (type token) eqn:E; simpl in Hrun;
      try (eapply (IH (S instr) d above); eauto; lia).
    + eapply (IH (S instr) (S d) (instr :: above)); eauto; simpl; try lia.
      apply not_elem_of_cons. split; [lia|done].
    + destruct d as [|d]; [done|].
      destruct above as [|top above]; [done|]. simpl in Hrun, Hlen.
      apply not_elem_of_cons in Hnotin as [Hne Hnotin].
      rewrite (IH (S instr) d above start below
                 (<[top := S instr]> (<[instr := top]> jump_table))
                 jump_stack' jump_table'); [|done|lia|lia|done|done].
      rewrite lookup_insert_ne by done. by rewrite lookup_insert_ne by lia.
Qed.

Lemma calc_jump_table_unclosed tokens jump_table i :
  type <$> (tokens !! i) = Some LOOP_START →
  find_close 0 (S i) (drop (S i) tokens) = None →
  _calc_jump_table tokens ∅ = Ok jump_table →
  jump_table !! i = None.
Proof.
  intros Hi Hfind Hcalc. unfold _calc_jump_table in Hcalc.
  destruct (tokens !! i) as [token|] eqn:Htok; [|done].
  injection Hi as Hi.
  pose proof (lookup_lt_Some _ _ _ Htok) as Hlen.
  rewrite <- (take_drop_middle tokens i token Htok) in Hcalc.
  rewrite calc_loop_app in Hcalc.
  destruct (calc_loop 0 (take i tokens) [] ∅) as [[st1 jt1]|] eqn:E1;
    simpl in Hcalc; [|done].
  pose proof (calc_loop_table_inv (take i tokens) (take i tokens) 0 [] ∅
                st1 jt1 eq_refl (table_inv_start _) E1) as (_ & _ & Hkeys).
  rewrite length_take_le in * by lia. simpl in Hkeys.
  rewrite Hi in Hcalc. simpl in Hcalc.
  destruct (calc_loop (S i) (drop (S i) tokens) (i :: st1) jt1)
    as [[st2 jt2]|] eqn:E2; simpl in Hcalc; [|done].
  injection Hcalc as <-.
  rewrite (calc_loop_unclosed (drop (S i) tokens) (S i) 0%nat [] i st1 jt1
             st2 jt2);
    [|done|done|lia|apply not_elem_of_nil|done].
  destruct (jt1 !! i) as [v|] eqn:Hv; [|done].
  destruct (Hkeys i v Hv) as [? _]. lia.
Qed.
End table.

(** X3. In an interpreter the constructor returned, the jump table holds
    exactly the matched pairs: a [LOOP_START] index [i] has the entry [j + 1]
    exactly when [(i, j)] is a matched pair, and a [LOOP_END] index [j] has
    the entry [i] exactly when [(i, j)] is a matched pair. *)
Theorem jump_table_is_matching (tokens : list BrainfuckToken) (bits : Z)
    (self : BrainfuckInterpreter) (i j : nat) :
  __init__ tokens bits = Ok self →
  (matched tokens i j ↔
     type <$> (tokens !! i) = Some LOOP_START ∧
     _jump_table self !! i = Some (S j)) ∧
  (matched tokens i j ↔
     type <$> (tokens !! j) = Some LOOP_END ∧
     _jump_table self !! j = Some i).
Proof.
  intros Hinit. destruct (init_inv _ _ _ Hinit) as (_ & Hcalc & _).
  assert (type <$> (tokens !! i) = Some LOOP_START →
          _jump_table self !! i = Some (S j) → matched tokens i j) as Hback.
  { intros Hi Hentry. split; [done|].
    destruct (find_close 0 (S i) (drop (S i) tokens)) as [j'|] eqn:Hfind.
    - destruct (calc_jump_table_matched tokens _ i j' (conj Hi Hfind) Hcalc)
        as [Hij _].
      rewrite Hij in Hentry. by injection Hentry as <-.
    - rewrite (calc_jump_table_unclosed tokens _ i Hi Hfind Hcalc) in Hentry.
      done. }
  split; split.
  - intros Hm. split; [apply Hm|].
    by destruct (calc_jump_table_matched tokens _ i j Hm Hcalc).
  - intros [Hi Hentry]. by apply Hback.
  - intros Hm. split; [by apply matched_between in Hm as (_ & ? & _)|].
    by destruct (calc_jump_table_matched tokens _ i j Hm Hcalc).
  - intros [Hj Hentry].
    destruct (calc_jump_table_inv tokens _ Hcalc) as (st & _ & _ & Hpairs).
    destruct (Hpairs j i Hentry)
      as (_ & _ & [(_ & _ & Hi & Hij)|(Hs & _)]); [|congruence].
    by apply Hback.
Qed.

Lemma jump_table_is_matching_witness :
  let tokens := [mkToken LOOP_START 0; mkToken LOOP_START 1; mkToken LOOP_END 2] in
  let self := mkInterpreter tokens (<[1%nat := 3%nat]> (<[2%nat := 1%nat]> ∅)) 8 256 in
  (matched tokens 1 2 ↔
     type <$> (tokens !! 1%nat) = Some LOOP_START ∧
     _jump_table self !! 1%nat = Some 3%nat) ∧
  (matched tokens 1 2 ↔
     type <$> (tokens !! 2%nat) = Some LOOP_END ∧
     _jump_table self !! 2%nat = Some 1%nat).
Proof.
  apply (jump_table_is_matching
           [mkToken LOOP_START 0; mkToken LOOP_START 1; mkToken LOOP_END 2] 8).
  reflexivity.
Defined.

Section entries.
Implicit Types (tokens : list BrainfuckToken) (jump_table : gmap nat nat).

Lemma calc_jump_table_entries tokens jump_table k v :
  _calc_jump_table tokens ∅ = Ok jump_table →
  jump_table !! k = Some v →
  (type <$> (tokens !! k) = Some LOOP_START ∨
   type <$> (tokens !! k) = Some LOOP_END) ∧
  (k < length tokens)%nat ∧ (v ≤ length tokens)%nat.
Proof.
  intros Hcalc Hk.
  destruct (calc_jump_table_inv tokens _ Hcalc) as (st & _ & _ & Hpairs).
  destruct (Hpairs k v Hk)
    as (Hlt & _ & [(He & Hvk & _)|(Hs & j & -> & _ & _ & Hj)]).
  - split; [by right|]. split; [done|lia].
  - split; [by left|]. split; [done|].
    destruct (Hpairs j k Hj) as (? & _). lia.
Qed.

Lemma calc_jump_table_loop_end tokens jump_table k :
  _calc_jump_table tokens ∅ = Ok jump_table →
  type <$> (tokens !! k) = Some LOOP_END →
  is_Some (jump_table !! k).
Proof.
  intros Hcalc Hk. destruct (tokens !! k) as [token|] eqn:Htok; [|done].
  injection Hk as Hk. unfold _calc_jump_table in Hcalc.
  destruct (calc_loop 0 tokens [] ∅) as [[st' jt]|] eqn:Hrun;
    simpl in Hcalc; [|done].
  injection Hcalc as <-.
  by destruct (calc_loop_covers _ _ _ _ _ _ k token Hrun Htok) as [_ He];
    apply He.
Qed.
End entries.

(** X4. In an interpreter the constructor returned, every key of the jump
    table is the index of a bracket token, every target is at most the number
    of tokens, and every [LOOP_END] has its entry; when the tokens are
    balanced, the keys are exactly the indices of the bracket tokens. *)
Theorem jump_table_keys_and_targets (tokens : list BrainfuckToken) (bits : Z)
    (self : BrainfuckInterpreter) :
  __init__ tokens bits = Ok self →
  (∀ k v, _jump_table self !! k = Some v →
     (type <$> (tokens !! k) = Some LOOP_START ∨
      type <$> (tokens !! k) = Some LOOP_END) ∧
     (k < length tokens)%nat ∧ (v ≤ length tokens)%nat) ∧
  (∀ k, type <$> (tokens !! k) = Some LOOP_END →
     is_Some (_jump_table self !! k)) ∧
  (balanced tokens →
   ∀ k, is_Some (_jump_table self !! k) ↔
        type <$> (tokens !! k) = Some LOOP_START ∨
        type <$> (tokens !! k) = Some LOOP_END).
Proof.
  intros Hinit. destruct (init_inv _ _ _ Hinit) as (_ & Hcalc & _).
  split; [|split].
  - intros k v. by apply calc_jump_table_entries.
  - intros k. by apply calc_jump_table_loop_end.
  - intros Hbal k. split.
    + intros [v Hk]. by destruct (calc_jump_table_entries tokens _ k v Hcalc Hk).
    + intros Hk. destruct (tokens !! k) as [token|] eqn:Htok.
      * apply (calc_jump_table_complete tokens _ k token Hbal Hcalc Htok).
        destruct Hk as [Hk|Hk]; injection Hk as Hk; auto.
      * by destruct Hk.
Qed.

Lemma jump_table_keys_and_targets_witness :
  let tokens := [mkToken LOOP_START 0; mkToken LOOP_START 1; mkToken LOOP_END 2] in
  let self := mkInterpreter tokens (<[1%nat := 3%nat]> (<[2%nat := 1%nat]> ∅)) 8 256 in
  (∀ k v, _jump_table self !! k = Some v →
     (type <$> (tokens !! k) = Some LOOP_START ∨
      type <$> (tokens !! k) = Some LOOP_END) ∧
     (k < length tokens)%nat ∧ (v ≤ length tokens)%nat) ∧
  (∀ k, type <$> (tokens !! k) = Some LOOP_END →
     is_Some (_jump_table self !! k)) ∧
  (balanced tokens →
   ∀ k, is_Some (_jump_table self !! k) ↔
        type <$> (tokens !! k) = Some LOOP_START ∨
        type <$> (tokens !! k) = Some LOOP_END).
Proof.
  apply (jump_table_keys_and_targets
           [mkToken LOOP_START 0; mkToken LOOP_START 1; mkToken LOOP_END 2] 8).
  reflexivity.
Defined.

(** ** What the loop of [run] keeps *)

(** Case analysis on the instruction an iteration executes. *)
Ltac iteration_cases self s Hit Htok Htype :=
  let token := fresh "token" in
  destruct (_tokens self !! instr s) as [token|] eqn:Htok;
  [ destruct (type token) eqn:Htype;
    [ rewrite (iteration_increment_pointer _ _ _ Htok Htype) in Hit
    | rewrite (iteration_decrement_pointer _ _ _ Htok Htype) in Hit
    | rewrite (iteration_increment_byte _ _ _ Htok Htype) in Hit
    | rewrite (iteration_decrement_byte _ _ _ Htok Htype) in Hit
    | rewrite (iteration_output_byte _ _ _ Htok Htype) in Hit
    | rewrite (iteration_input_byte _ _ _ Htok Htype) in Hit
    | rewrite (iteration_loop_start _ _ _ Htok Htype) in Hit
    | rewrite (iteration_loop_end _ _ _ Htok Htype) in Hit ]
  | apply lookup_ge_None in Htok;
    rewrite (iteration_break _ _ Htok) in Hit ].

Section kept.
Implicit Types (self : BrainfuckInterpreter) (s : locals).

(** What an iteration that goes on changes, whatever the instruction. *)
Lemma iteration_next self s s' :
  iteration self s = Ok (Next s') →
  (instr s < length (_tokens self))%nat ∧
  steps s' = S (steps s) ∧
  (pointer s' = pointer s ∨ pointer s' = pointer s + 1 ∨
   pointer s' = pointer s - 1) ∧
  (∃ v, data s' = <[pointer s := v]> (data s)) ∧
  (output s' = output s ∨
   output s' = output s ++ [cell (data s) (pointer s)] ∧
   0 ≤ cell (data s) (pointer s) ≤ 1114111) ∧
  (instr s' = S (instr s) ∨
   _jump_table self !! instr s = Some (instr s')).
Proof.
  intros Hit.
  assert (∃ v, (setdefault (data s) (pointer s) 0).2 = <[pointer s := v]> (data s))
    as Hdef by (eexists; apply setdefault_insert).
  iteration_cases self s Hit Htok Htype;
    try (apply lookup_lt_Some in Htok; injection Hit as <-; simpl;
         split; [done|]; split; [done|]; split; [auto|];
         split; [done || by eexists|]; split; auto).
  - unfold chr in Hit.
    case_bool_decide as Hc; simpl in Hit; [|by case_bool_decide].
    apply lookup_lt_Some in Htok. injection Hit as <-. simpl.
    split; [done|]. split; [done|]. split; [auto|]. split; [done|].
    split; [|auto]. right. split; [done|lia].
  - apply lookup_lt_Some in Htok. case_decide.
    + unfold getitem in Hit.
      destruct (_jump_table self !! instr s) as [target|] eqn:Hjt;
        simpl in Hit; [|done].
      injection Hit as <-. simpl. repeat (split; auto).
    + injection Hit as <-. simpl. repeat (split; auto).
  - apply lookup_lt_Some in Htok. case_decide.
    + injection Hit as <-. simpl. repeat (split; auto).
    + unfold getitem in Hit.
      destruct (_jump_table self !! instr s) as [target|] eqn:Hjt;
        simpl in Hit; [|done].
      injection Hit as <-. simpl. repeat (split; auto).
  - done.
Qed.

(** [run] returns the output of a state whose [instr] is past the tokens. *)
Lemma run_loop_return self out : ∀ fuel s,
  reachable self s → run_loop fuel self s = Some (Ok out) →
  ∃ s', reachable self s' ∧ (length (_tokens self) ≤ instr s')%nat ∧
        out = output s'.
Proof.
  induction fuel as [|fuel IH]; intros s Hs Hrun; simpl in Hrun; [done|].
  destruct (iteration self s) as [[s'|out']|e'] eqn:Hit; [|clear IH|done].
  - eapply IH; [|done]. by eapply reachable_next.
  - injection Hrun as <-. exists s. split; [done|].
    destruct (decide (length (_tokens self) ≤ instr s)%nat) as [Hle|Hlt].
    + rewrite (iteration_break _ _ Hle) in Hit. injection Hit as <-. done.
    + exfalso. iteration_cases self s Hit Htok Htype;
        try done; try (by destruct (chr _));
        try (case_decide; try done; by destruct (getitem _ _)).
Qed.
End kept.

(** X5. In an interpreter the constructor returned, [instr] never exceeds the
    number of tokens, and [run] returns exactly when [instr] equals it, with
    the output accumulated so far. *)
Theorem program_counter_in_bounds (tokens : list BrainfuckToken) (bits : Z)
    (self : BrainfuckInterpreter) :
  __init__ tokens bits = Ok self →
  (∀ s, reachable self s → (instr s ≤ length tokens)%nat) ∧
  (∀ s, reachable self s →
     (instr s = length tokens ↔ iteration self s = Ok (Return (output s)))) ∧
  (∀ fuel out, run fuel self = Some (Ok out) →
     ∃ s, reachable self s ∧ instr s = length tokens ∧ out = output s).
Proof.
  intros Hinit.
  destruct (init_inv _ _ _ Hinit) as (Htoks & Hcalc & _).
  pose proof (λ k v, calc_jump_table_entries tokens _ k v Hcalc) as Hkeys.
  assert (∀ s, reachable self s → (instr s ≤ length tokens)%nat) as Hpc.
  { intros s Hs. destruct Hs as [|s s' _ Hit]; [simpl; lia|].
    destruct (iteration_next _ _ _ Hit) as (Hlt & _ & _ & _ & _ & Hjump).
    rewrite Htoks in Hlt. destruct Hjump as [->|Hjump]; [lia|].
    by destruct (Hkeys _ _ Hjump) as (_ & _ & ?). }
  split; [exact Hpc|]. split.
  - intros s Hs. split.
    + intros Heq. apply iteration_break. rewrite Htoks. lia.
    + intros Hit. specialize (Hpc s Hs).
      destruct (decide (instr s = length tokens)) as [|Hne]; [done|].
      exfalso. iteration_cases self s Hit Htok Htype;
        try done; try (by destruct (chr _));
        try (case_decide; try done; by destruct (getitem _ _)).
      rewrite Htoks in Htok. lia.
  - intros fuel out Hrun.
    apply run_loop_return in Hrun as (s & Hs & Hge & ->);
      [|apply reachable_start].
    exists s. split; [done|]. split; [|done].
    specialize (Hpc s Hs). rewrite Htoks in Hge. lia.
Qed.

Lemma program_counter_in_bounds_witness :
  let tokens := [mkToken LOOP_START 0; mkToken LOOP_END 1] in
  let self := mkInterpreter tokens (<[0%nat := 2%nat]> (<[1%nat := 0%nat]> ∅)) 8 256 in
  (∀ s, reachable self s → (instr s ≤ length tokens)%nat) ∧
  (∀ s, reachable self s →
     (instr s = length tokens ↔ iteration self s = Ok (Return (output s)))) ∧
  (∀ fuel out, run fuel self = Some (Ok out) →
     ∃ s, reachable self s ∧ instr s = length tokens ∧ out = output s).
Proof.
  apply (program_counter_in_bounds
           [mkToken LOOP_START 0; mkToken LOOP_END 1] 8).
  reflexivity.
Defined.

(** X6. Every character [run] puts out is a cell value: a code point below
    [2^bits] (and at most [0x10FFFF]), in every state on the way and in the
    string [run] returns. *)
Theorem output_alphabet (tokens : list BrainfuckToken) (bits : Z)
    (self : BrainfuckInterpreter) :
  __init__ tokens bits = Ok self →
  (∀ s, reachable self s →
     Forall (λ c, 0 ≤ c < 2 ^ _bits self ∧ c ≤ 1114111) (output s)) ∧
  (∀ fuel out, run fuel self = Some (Ok out) →
     Forall (λ c, 0 ≤ c < 2 ^ _bits self ∧ c ≤ 1114111) out).
Proof.
  intros Hinit.
  pose proof (init_bitwidth_pos _ _ _ Hinit) as Hbw.
  destruct (init_inv _ _ _ Hinit) as (_ & _ & _ & Hpow & _).
  assert (∀ s, reachable self s →
     Forall (λ c, 0 ≤ c < 2 ^ _bits self ∧ c ≤ 1114111) (output s)) as Hout.
  { intros s Hs. induction Hs as [|s s' Hs IH Hit]; [constructor|].
    destruct (iteration_next _ _ _ Hit) as (_ & _ & _ & _ & Ho & _).
    destruct Ho as [->|[-> Hcp]]; [done|].
    apply Forall_app. split; [done|]. constructor; [|constructor].
    pose proof (in_range_cell _ _ (pointer s) Hbw
                  (reachable_in_range self s Hbw Hs)) as Hc.
    rewrite Hpow in Hc. lia. }
  split; [exact Hout|].
  intros fuel out Hrun.
  apply run_loop_return in Hrun as (s & Hs & _ & ->); [|apply reachable_start].
  by apply Hout.
Qed.

Lemma output_alphabet_witness :
  let self := mkInterpreter [mkToken DECREMENT_BYTE 0; mkToken OUTPUT_BYTE 1]
                            ∅ 16 65536 in
  (∀ s, reachable self s →
     Forall (λ c, 0 ≤ c < 2 ^ _bits self ∧ c ≤ 1114111) (output s)) ∧
  (∀ fuel out, run fuel self = Some (Ok out) →
     Forall (λ c, 0 ≤ c < 2 ^ _bits self ∧ c ≤ 1114111) out).
Proof.
  apply (output_alphabet [mkToken DECREMENT_BYTE 0; mkToken OUTPUT_BYTE 1] 16).
  reflexivity.
Defined.

(** X7. After [n] iterations the pointer is within [n] of the origin, every
    address in the cell store is strictly within [n] of it, and the store
    holds at most [n] cells; [steps] counts the iterations. This holds for any
    tokens, jump table and bit-width. *)
Theorem tape_footprint (self : BrainfuckInterpreter) (s : locals) :
  reachable self s →
  - Z.of_nat (steps s) ≤ pointer s ≤ Z.of_nat (steps s) ∧
  (∀ a, is_Some (data s !! a) →
        - Z.of_nat (steps s) < a < Z.of_nat (steps s)) ∧
  (size (data s) ≤ steps s)%nat.
Proof.
  intros Hs. induction Hs as [|s s' Hs (IHp & IHd & IHn) Hit].
  - simpl. split; [lia|]. split; [|by rewrite map_size_empty].
    intros a [v Ha]. by rewrite lookup_empty in Ha.
  - destruct (iteration_next _ _ _ Hit) as (_ & -> & Hp & [v ->] & _).
    split; [lia|]. split.
    + intros a Ha. rewrite lookup_insert_is_Some' in Ha.
      destruct Ha as [<-|Ha]; [lia|]. apply IHd in Ha. lia.
    + rewrite map_size_insert. destruct (data s !! pointer s); simpl; lia.
Qed.

Lemma tape_footprint_witness :
  let self := mkInterpreter [mkToken DECREMENT_POINTER 0] ∅ 8 256 in
  let s := mkLocals (-1) 1 1 {[0 := 0]} [] in
  - Z.of_nat (steps s) ≤ pointer s ≤ Z.of_nat (steps s) ∧
  (∀ a, is_Some (data s !! a) →
        - Z.of_nat (steps s) < a < Z.of_nat (steps s)) ∧
  (size (data s) ≤ steps s)%nat.
Proof.
  apply (tape_footprint (mkInterpreter [mkToken DECREMENT_POINTER 0] ∅ 8 256)
           (mkLocals (-1) 1 1 {[0 := 0]} [])).
  eapply reachable_next; [apply reachable_start|reflexivity].
Defined.

(** ** The ways [run] can fail *)

(** X8. In an interpreter the constructor returned, an iteration raises a
    [KeyError] exactly at a [LOOP_START] that no [LOOP_END] closes, met with a
    zero cell; it raises a [ValueError] exactly at an [OUTPUT_BYTE] whose cell
    value is above [0x10FFFF] and at most [2^31 - 1], and an [OverflowError]
    exactly at an [OUTPUT_BYTE] whose cell value is above [2^31 - 1]; no
    iteration raises an [IndexError]; so [run] raises nothing but a
    [KeyError], and then the tokens are not balanced, or a [ValueError] or an
    [OverflowError], and then the bit-width is 32 or 64. *)
Theorem run_failures (tokens : list BrainfuckToken) (bits : Z)
    (self : BrainfuckInterpreter) :
  __init__ tokens bits = Ok self →
  (∀ s, iteration self s = Raise KeyError ↔
        type <$> (tokens !! instr s) = Some LOOP_START ∧
        cell (data s) (pointer s) = 0 ∧
        find_close 0 (S (instr s)) (drop (S (instr s)) tokens) = None) ∧
  (∀ s, reachable self s →
     (iteration self s = Raise ValueError ↔
        type <$> (tokens !! instr s) = Some OUTPUT_BYTE ∧
        1114111 < cell (data s) (pointer s) ≤ 2147483647) ∧
     (iteration self s = Raise OverflowError ↔
        type <$> (tokens !! instr s) = Some OUTPUT_BYTE ∧
        2147483647 < cell (data s) (pointer s))) ∧
  (∀ s, iteration self s ≠ Raise IndexError) ∧
  (∀ fuel e, run fuel self = Some (Raise e) →
     e = KeyError ∧ ¬ balanced tokens ∨
     (e = ValueError ∨ e = OverflowError) ∧
     (_bits self = 32 ∨ _bits self = 64)).
Proof.
  intros Hinit.
  destruct (init_inv _ _ _ Hinit) as (Htoks & Hcalc & Hbits & _).
  pose proof (λ k, calc_jump_table_loop_end tokens _ k Hcalc) as Hends.
  assert (∀ i, type <$> (tokens !! i) = Some LOOP_START →
            (_jump_table self !! i = None ↔
             find_close 0 (S i) (drop (S i) tokens) = None)) as Hopen.
  { intros i Hi. split.
    - intros Hnone.
      destruct (find_close 0 (S i) (drop (S i) tokens)) as [j|] eqn:Hfind;
        [|done].
      destruct (calc_jump_table_matched tokens _ i j (conj Hi Hfind) Hcalc)
        as [Hij _]. congruence.
    - intros Hfind. by apply (calc_jump_table_unclosed tokens). }
  assert (∀ s, iteration self s = Raise KeyError ↔
        type <$> (tokens !! instr s) = Some LOOP_START ∧
        cell (data s) (pointer s) = 0 ∧
        find_close 0 (S (instr s)) (drop (S (instr s)) tokens) = None) as Hkey.
  { intros s. split.
    - intros Hit. iteration_cases self s Hit Htok Htype; try done.
      + unfold chr in Hit. by repeat case_bool_decide.
      + rewrite Htoks in Htok. case_decide as Hz; [|done].
        assert (type <$> (tokens !! instr s) = Some LOOP_START) as Hi
          by (by rewrite Htok; simpl; rewrite Htype).
        split; [done|]. split; [done|]. apply Hopen; [done|].
        unfold getitem in Hit. by destruct (_jump_table self !! instr s).
      + rewrite Htoks in Htok. case_decide as Hz; [done|].
        destruct (Hends (instr s)) as [v Hv];
          [by rewrite Htok; simpl; rewrite Htype|].
        unfold getitem in Hit. by rewrite Hv in Hit.
    - intros (Hi & Hz & Hfind).
      destruct (tokens !! instr s) as [token|] eqn:Htok; [|done].
      injection Hi as Htype. rewrite <- Htoks in Htok.
      rewrite (iteration_loop_start _ _ _ Htok Htype).
      rewrite decide_True by done. unfold getitem.
      apply Hopen in Hfind; [by rewrite Hfind|].
      rewrite Htoks in Htok. by rewrite Htok; simpl; rewrite Htype. }
  assert (∀ s, iteration self s ≠ Raise IndexError) as Hidx.
  { intros s Hit. iteration_cases self s Hit Htok Htype; try done.
    - unfold chr in Hit. by repeat case_bool_decide.
    - case_decide; [|done]. unfold getitem in Hit.
      by destruct (_jump_table self !! instr s).
    - case_decide; [done|]. unfold getitem in Hit.
      by destruct (_jump_table self !! instr s). }
  pose proof (init_bitwidth_pos _ _ _ Hinit) as Hbw.
  destruct (init_inv _ _ _ Hinit) as (_ & _ & _ & Hpow & _).
  assert (∀ s, reachable self s →
            0 ≤ cell (data s) (pointer s) < 2 ^ _bits self) as Hrange.
  { intros s Hs. rewrite <- Hpow.
    apply in_range_cell; [done|]. by apply reachable_in_range. }
  assert (∀ s e, reachable self s → e = ValueError ∨ e = OverflowError →
            (iteration self s = Raise e ↔
             type <$> (tokens !! instr s) = Some OUTPUT_BYTE ∧
             1114111 < cell (data s) (pointer s) ∧
             e = chr_exn (cell (data s) (pointer s)))) as Hchr.
  { intros s e Hs He. specialize (Hrange s Hs).
    rewrite (iteration_chr_error self s e He), Htoks. split.
    - intros (token & Htok & Htype & Hc & ->).
      rewrite Htok. simpl. rewrite Htype. split; [done|]. split; [lia|done].
    - intros (Hi & Hc & ->).
      destruct (tokens !! instr s) as [token|] eqn:Htok; [|done].
      injection Hi as Htype. exists token. split; [done|]. split; [done|].
      split; [lia|done]. }
  assert (∀ s e, reachable self s → e = ValueError ∨ e = OverflowError →
            iteration self s = Raise e → _bits self = 32 ∨ _bits self = 64)
    as Hwide.
  { intros s e Hs He Hit. specialize (Hrange s Hs).
    apply (Hchr s e Hs He) in Hit as (_ & Hc & _).
    set_unfold in Hbits.
    destruct Hbits as [Hb|[Hb|[Hb|[Hb|[]]]]]; rewrite Hb in Hrange; auto; lia. }
  split; [exact Hkey|]. split; [|split; [exact Hidx|]].
  - intros s Hs. specialize (Hrange s Hs). split.
    + rewrite (Hchr s ValueError Hs) by auto. unfold chr_exn.
      split; intros (Hi & Hc & He); (split; [done|]).
      * case_bool_decide; [lia|done].
      * split; [lia|]. rewrite bool_decide_true; [done|lia].
    + rewrite (Hchr s OverflowError Hs) by auto. unfold chr_exn.
      split.
      * intros (Hi & Hc & He). split; [done|].
        case_bool_decide; [done|lia].
      * intros (Hi & Hc). split; [done|]. split; [lia|].
        rewrite bool_decide_false; [done|lia].
  - intros fuel e Hrun.
    apply run_loop_raise in Hrun as (s & Hs & Hit); [|apply reachable_start].
    destruct e.
    + by apply Hidx in Hit.
    + left. split; [done|]. intros Hbal.
      apply Hkey in Hit as (Hi & _ & Hfind). apply Hopen in Hfind; [|done].
      destruct (tokens !! instr s) as [token|] eqn:Htok; [|done].
      injection Hi as Htype.
      destruct (calc_jump_table_complete tokens _ (instr s) token Hbal Hcalc
                  Htok) as [v Hv]; [by left|]. congruence.
    + right. split; [by left|]. by apply (Hwide s ValueError Hs); auto.
    + right. split; [by right|]. by apply (Hwide s OverflowError Hs); auto.
Qed.

Lemma run_failures_witness :
  let tokens := [mkToken LOOP_START 0] in
  let self := mkInterpreter tokens ∅ 8 256 in
  (∀ s, iteration self s = Raise KeyError ↔
        type <$> (tokens !! instr s) = Some LOOP_START ∧
        cell (data s) (pointer s) = 0 ∧
        find_close 0 (S (instr s)) (drop (S (instr s)) tokens) = None) ∧
  (∀ s, reachable self s →
     (iteration self s = Raise ValueError ↔
        type <$> (tokens !! instr s) = Some OUTPUT_BYTE ∧
        1114111 < cell (data s) (pointer s) ≤ 2147483647) ∧
     (iteration self s = Raise OverflowError ↔
        type <$> (tokens !! instr s) = Some OUTPUT_BYTE ∧
        2147483647 < cell (data s) (pointer s))) ∧
  (∀ s, iteration self s ≠ Raise IndexError) ∧
  (∀ fuel e, run fuel self = Some (Raise e) →
     e = KeyError ∧ ¬ balanced tokens ∨
     (e = ValueError ∨ e = OverflowError) ∧
     (_bits self = 32 ∨ _bits self = 64)).
Proof.
  apply (run_failures [mkToken LOOP_START 0] 8). reflexivity.
Defined.

(** ** Programs without loops *)

Section straight_line.
Implicit Types (self : BrainfuckInterpreter) (s : locals).

Lemma run_loop_straight_line self : ∀ n s,
  Forall (λ t, type t ≠ LOOP_START ∧ type t ≠ LOOP_END) (_tokens self) →
  (instr s + n = length (_tokens self))%nat →
  ∃ r, run_loop (S n) self s = Some r.
Proof.
  induction n as [|n IH]; intros s Hfree Hn.
  - simpl. rewrite iteration_break by lia. eauto.
  - destruct (iteration self s) as [[s'|out]|e] eqn:Hit.
    + assert (instr s' = S (instr s)) as Hnext.
      { pose proof Hit as Hit'.
        iteration_cases self s Hit' Htok Htype;
          try (by injection Hit' as <-).
        - destruct (chr _); [|done]. by injection Hit' as <-.
        - rewrite Forall_forall in Hfree.
          apply list_elem_of_lookup_2 in Htok. apply Hfree in Htok. tauto.
        - rewrite Forall_forall in Hfree.
          apply list_elem_of_lookup_2 in Htok. apply Hfree in Htok. tauto.
        - done. }
      destruct (IH s' Hfree) as [r Hr]; [lia|].
      exists r. change (run_loop (S (S n)) self s)
        with (match iteration self s with
              | Raise e => Some (Raise e)
              | Ok (Return out) => Some (Ok out)
              | Ok (Next s') => run_loop (S n) self s'
              end).
      by rewrite Hit.
    + exists (Ok out). simpl. by rewrite Hit.
    + exists (Raise e). simpl. by rewrite Hit.
Qed.

Lemma run_loop_straight_line_output self : ∀ n s,
  Forall (λ t, type t ≠ LOOP_START ∧ type t ≠ LOOP_END) (_tokens self) →
  (instr s + n = length (_tokens self))%nat →
  0 < _bitwidth self ≤ 1114112 →
  in_range (_bitwidth self) (data s) →
  ∃ out, run_loop (S n) self s = Some (Ok out) ∧
    length out =
      (length (output s) +
       length (filter (λ t, type t = OUTPUT_BYTE)
                      (drop (instr s) (_tokens self))))%nat.
Proof.
  induction n as [|n IH]; intros s Hfree Hn Hbw Hd.
  - simpl. rewrite iteration_break by lia.
    eexists; split; [done|]. rewrite drop_ge by lia. simpl. lia.
  - assert (∃ token, _tokens self !! instr s = Some token) as [token Htok].
    { apply lookup_lt_is_Some. lia. }
    assert (type token ≠ LOOP_START ∧ type token ≠ LOOP_END) as [Hns Hne].
    { rewrite Forall_forall in Hfree. apply Hfree.
      by apply list_elem_of_lookup_2 in Htok. }
    pose proof (in_range_cell _ _ (pointer s) (proj1 Hbw) Hd) as Hc.
    rewrite (drop_S _ _ _ Htok), filter_cons.
    assert (∀ s', iteration self s = Ok (Next s') →
              instr s' = S (instr s) →
              ∃ out, run_loop (S (S n)) self s = Some (Ok out) ∧
                length out =
                  (length (output s') +
                   length (filter (λ t, type t = OUTPUT_BYTE)
                                  (drop (S (instr s)) (_tokens self))))%nat)
      as Hgo.
    { intros s' Hit Hnext.
      destruct (IH s' Hfree) as (out & Hrun & Hlen);
        [lia|done|by eapply iteration_in_range; [lia| |]|].
      exists out. rewrite Hnext in Hlen. split; [|done].
      change (run_loop (S (S n)) self s)
        with (match iteration self s with
              | Raise e => Some (Raise e)
              | Ok (Return out) => Some (Ok out)
              | Ok (Next s') => run_loop (S n) self s'
              end).
      by rewrite Hit. }
    destruct (type token) eqn:Htype; try done;
      try rewrite decide_False by done.
    + edestruct Hgo as (out & ? & ?);
        [by apply (iteration_increment_pointer _ _ _ Htok Htype)|done|].
      by exists out.
    + edestruct Hgo as (out & ? & ?);
        [by apply (iteration_decrement_pointer _ _ _ Htok Htype)|done|].
      by exists out.
    + edestruct Hgo as (out & ? & ?);
        [by apply (iteration_increment_byte _ _ _ Htok Htype)|done|].
      by exists out.
    + edestruct Hgo as (out & ? & ?);
        [by apply (iteration_decrement_byte _ _ _ Htok Htype)|done|].
      by exists out.
    + rewrite decide_True by done.
      edestruct Hgo as (out & ? & Hlen);
        [rewrite (iteration_output_byte _ _ _ Htok Htype), chr_ok by lia;
         done|done|].
      exists out. split; [done|]. simpl in Hlen.
      rewrite length_app in Hlen. simpl in *. lia.
    + edestruct Hgo as (out & ? & ?);
        [by apply (iteration_input_byte _ _ _ Htok Htype)|done|].
      by exists out.
Qed.
End straight_line.

(** X9. A program without brackets always ends: within as many iterations as
    it has tokens, plus one, [run] has returned or raised; with 8 or 16 bits
    it returns, and its output has one character per [OUTPUT_BYTE] token. *)
Theorem straight_line_terminates (tokens : list BrainfuckToken) (bits : Z)
    (self : BrainfuckInterpreter) :
  __init__ tokens bits = Ok self →
  Forall (λ t, type t ≠ LOOP_START ∧ type t ≠ LOOP_END) tokens →
  (∃ r, run (S (length tokens)) self = Some r) ∧
  (_bits self = 8 ∨ _bits self = 16 →
   ∃ out, run (S (length tokens)) self = Some (Ok out) ∧
     length out = length (filter (λ t, type t = OUTPUT_BYTE) tokens)).
Proof.
  intros Hinit Hfree.
  destruct (init_inv _ _ _ Hinit) as (Htoks & _ & _ & Hpow & _).
  rewrite <- Htoks in *. split.
  - apply run_loop_straight_line; [done|simpl; lia].
  - intros Hbits.
    destruct (run_loop_straight_line_output self (length (_tokens self))
                run_start) as (out & Hrun & Hlen);
      [done|simpl; lia| |apply map_Forall_empty|].
    + rewrite Hpow. destruct Hbits as [-> | ->]; lia.
    + exists out. split; [done|]. by rewrite Hlen.
Qed.

Lemma straight_line_terminates_witness :
  let tokens := [mkToken INCREMENT_BYTE 0; mkToken OUTPUT_BYTE 1;
                 mkToken INPUT_BYTE 2; mkToken OUTPUT_BYTE 3] in
  let self := mkInterpreter tokens ∅ 8 256 in
  (∃ r, run (S (length tokens)) self = Some r) ∧
  (_bits self = 8 ∨ _bits self = 16 →
   ∃ out, run (S (length tokens)) self = Some (Ok out) ∧
     length out = length (filter (λ t, type t = OUTPUT_BYTE) tokens)).
Proof.
  apply (straight_line_terminates
           [mkToken INCREMENT_BYTE 0; mkToken OUTPUT_BYTE 1;
            mkToken INPUT_BYTE 2; mkToken OUTPUT_BYTE 3] 8).
  - reflexivity.
  - repeat constructor; discriminate.
Defined.

(** ** Loops *)

(** X10. In an interpreter the constructor returned, for a matched pair
    [(i, j)]: at the [LOOP_START] an iteration goes to [j + 1] when the
    current cell is zero and to [i + 1] otherwise; at the [LOOP_END] it goes
    to [j + 1] when the current cell is zero and back to [i] otherwise.
    Nothing but [instr], [steps] and the defaulted cell changes. *)
Theorem loop_control (tokens : list BrainfuckToken) (bits : Z)
    (self : BrainfuckInterpreter) (i j : nat) (s : locals) :
  __init__ tokens bits = Ok self → matched tokens i j →
  (instr s = i →
   iteration self s =
     Ok (Next (set_instr (if decide (cell (data s) (pointer s) = 0)
                          then S j else S i) (defaulted s)))) ∧
  (instr s = j →
   iteration self s =
     Ok (Next (set_instr (if decide (cell (data s) (pointer s) = 0)
                          then S j else i) (defaulted s)))).
Proof.
  intros Hinit Hm.
  destruct (init_inv _ _ _ Hinit) as (Htoks & Hcalc & _).
  destruct (calc_jump_table_matched tokens _ i j Hm Hcalc) as [Hi Hj].
  pose proof (matched_between tokens i j Hm) as (_ & Hend & _).
  destruct Hm as [Hstart _].
  split; intros Hs.
  - destruct (tokens !! i) as [token|] eqn:Htok; [|done].
    injection Hstart as Htype. rewrite <- Htoks, <- Hs in Htok.
    rewrite (iteration_loop_start _ _ _ Htok Htype).
    case_decide; [|by rewrite Hs]. unfold getitem. by rewrite Hs, Hi.
  - destruct (tokens !! j) as [token|] eqn:Htok; [|done].
    injection Hend as Htype. rewrite <- Htoks, <- Hs in Htok.
    rewrite (iteration_loop_end _ _ _ Htok Htype).
    case_decide; [by rewrite Hs|]. unfold getitem. by rewrite Hs, Hj.
Qed.

Lemma loop_control_witness :
  let tokens := [mkToken LOOP_START 0; mkToken LOOP_START 1;
                 mkToken LOOP_END 2; mkToken LOOP_END 3] in
  let self := mkInterpreter tokens
    (<[0%nat := 4%nat]> (<[3%nat := 0%nat]>
       (<[1%nat := 3%nat]> (<[2%nat := 1%nat]> ∅)))) 8 256 in
  let s := run_start in
  (instr s = 0%nat →
   iteration self s =
     Ok (Next (set_instr (if decide (cell (data s) (pointer s) = 0)
                          then 4%nat else 1%nat) (defaulted s)))) ∧
  (instr s = 3%nat →
   iteration self s =
     Ok (Next (set_instr (if decide (cell (data s) (pointer s) = 0)
                          then 4%nat else 0%nat) (defaulted s)))).
Proof.
  apply (loop_control
           [mkToken LOOP_START 0; mkToken LOOP_START 1;
            mkToken LOOP_END 2; mkToken LOOP_END 3] 8 _ 0 3 run_start).
  - reflexivity.
  - split; reflexivity.
Defined.

Section loops_and_cells.
Implicit Types (self : BrainfuckInterpreter) (s : locals).

Lemma cell_insert (d : gmap Z Z) p v : cell (<[p := v]> d) p = v.
Proof. unfold cell. by rewrite lookup_insert_eq. Qed.

Lemma cell_insert_ne (d : gmap Z Z) p a v : p ≠ a → cell (<[p := v]> d) a = cell d a.
Proof. intros. unfold cell. by rewrite lookup_insert_ne. Qed.

Lemma defaulted_data s :
  data (defaulted s) = <[pointer s := cell (data s) (pointer s)]> (data s).
Proof. simpl. apply setdefault_insert. Qed.

Lemma iterates_app self n m s s' s'' :
  iterates self n s s' → iterates self m s' s'' → iterates self (n + m) s s''.
Proof.
  induction 1 as [|n s s1 s' Hit _ IH]; intros Hm; [done|].
  simpl. eapply iterates_S; [done|]. by apply IH.
Qed.

Lemma iterates_reachable self n s s' :
  iterates self n s s' → reachable self s → reachable self s'.
Proof.
  induction 1 as [|n s s1 s' Hit _ IH]; intros Hs; [done|].
  apply IH. by eapply reachable_next.
Qed.

(** One round of the loop [[-]] from a non-zero cell. *)
Lemma clear_loop_round self i t0 t1 t2 s :
  _tokens self !! i = Some t0 → type t0 = LOOP_START →
  _tokens self !! S i = Some t1 → type t1 = DECREMENT_BYTE →
  _tokens self !! S (S i) = Some t2 → type t2 = LOOP_END →
  _jump_table self !! S (S i) = Some i →
  instr s = i → 0 < cell (data s) (pointer s) →
  iterates self 3 s
    (mkLocals (pointer s)
       (if decide (cell (data s) (pointer s) = 1) then S (S (S i)) else i)
       (S (S (S (steps s))))
       (<[pointer s := cell (data s) (pointer s) - 1]> (data s))
       (output s)).
Proof.
  intros Ht0 Hy0 Ht1 Hy1 Ht2 Hy2 Hjj Hs Hv.
  eapply iterates_S; [|eapply iterates_S; [|eapply iterates_S;
                                               [|apply iterates_O]]].
  - rewrite <- Hs in Ht0.
    rewrite (iteration_loop_start _ _ _ Ht0 Hy0), decide_False by lia.
    reflexivity.
  - rewrite (iteration_decrement_byte _ _ t1); [reflexivity| |done].
    simpl. by rewrite Hs.
  - rewrite (iteration_loop_end _ _ t2); [| |done].
    2:{ simpl. by rewrite Hs. }
    simpl. rewrite !setdefault_insert. rewrite !cell_insert.
    fold (cell (data s) (pointer s)).
    rewrite (decide_False (P := cell (data s) (pointer s) - 1 = -1)) by lia.
    unfold defaulted, set_instr, set_data. simpl.
    rewrite !setdefault_insert, !lookup_insert_eq. simpl.
    rewrite !insert_insert_eq. fold (cell (data s) (pointer s)).
    rewrite Hs.
    destruct (decide (cell (data s) (pointer s) = 1)) as [H1|H1].
    + rewrite decide_True by lia. reflexivity.
    + rewrite decide_False by lia. unfold getitem. rewrite Hjj. reflexivity.
Qed.

(** The loop [[-]] from a cell holding [v]: one iteration when [v] is zero,
    three for each unit of [v] otherwise. *)
Lemma clear_loop_iterates self i t0 t1 t2 (v : nat) : ∀ s,
  _tokens self !! i = Some t0 → type t0 = LOOP_START →
  _tokens self !! S i = Some t1 → type t1 = DECREMENT_BYTE →
  _tokens self !! S (S i) = Some t2 → type t2 = LOOP_END →
  _jump_table self !! i = Some (S (S (S i))) →
  _jump_table self !! S (S i) = Some i →
  instr s = i → cell (data s) (pointer s) = Z.of_nat v →
  ∃ s', iterates self (if decide (v = 0%nat) then 1 else 3 * v) s s' ∧
    instr s' = S (S (S i)) ∧ pointer s' = pointer s ∧
    output s' = output s ∧
    data s' = <[pointer s := 0]> (data s).
Proof.
  intros s Ht0 Hy0 Ht1 Hy1 Ht2 Hy2 Hji Hjj Hs Hv.
  destruct v as [|v].
  { rewrite decide_True by done. eexists. split.
    - eapply iterates_S; [|apply iterates_O].
      rewrite <- Hs in Ht0, Hji.
      rewrite (iteration_loop_start _ _ _ Ht0 Hy0), decide_True by done.
      unfold getitem. rewrite Hji. reflexivity.
    - simpl. rewrite Hs. split; [done|]. split; [done|]. split; [done|].
      rewrite setdefault_insert. unfold cell in Hv. by rewrite Hv. }
  rewrite decide_False by done.
  revert s Hs Hv. induction v as [|v IH]; intros s Hs Hv.
  - eexists. split.
    + apply (clear_loop_round self i t0 t1 t2 s); try done. lia.
    + simpl. rewrite decide_True by lia. rewrite Hv. done.
  - pose proof (clear_loop_round self i t0 t1 t2 s Ht0 Hy0 Ht1 Hy1 Ht2 Hy2
                  Hjj Hs ltac:(lia)) as Hround.
    rewrite decide_False in Hround by lia.
    match type of Hround with iterates _ _ _ ?s3 =>
      destruct (IH s3) as (s' & Hits & Hi' & Hp' & Ho' & Hd') end;
      [done|simpl; rewrite cell_insert; lia|].
    exists s'. split.
    + replace (3 * S (S v))%nat with (3 + 3 * S v)%nat by lia.
      eapply iterates_app; [exact Hround|exact Hits].
    + split; [done|]. split; [done|]. split; [done|].
      rewrite Hd'. simpl. by rewrite insert_insert_eq.
Qed.
End loops_and_cells.

(** X11. The loop [[-]] clears the current cell. In an interpreter the
    constructor returned, from a state at the [LOOP_START] of a [[-]] whose
    current cell holds [v ≥ 0], the loop is left after one iteration when [v]
    is zero and after [3 v] iterations otherwise, with the cell at zero and
    the pointer, the output and every other cell as they were. *)
Theorem clear_loop (tokens : list BrainfuckToken) (bits : Z)
    (self : BrainfuckInterpreter) (i : nat) (s : locals) :
  __init__ tokens bits = Ok self →
  type <$> (tokens !! i) = Some LOOP_START →
  type <$> (tokens !! S i) = Some DECREMENT_BYTE →
  type <$> (tokens !! S (S i)) = Some LOOP_END →
  instr s = i → 0 ≤ cell (data s) (pointer s) →
  ∃ s',
    iterates self (if decide (cell (data s) (pointer s) = 0) then 1
                   else 3 * Z.to_nat (cell (data s) (pointer s))) s s' ∧
    instr s' = S (S (S i)) ∧ pointer s' = pointer s ∧
    output s' = output s ∧
    data s' = <[pointer s := 0]> (data s).
Proof.
  intros Hinit H0 H1 H2 Hs Hv.
  destruct (init_inv _ _ _ Hinit) as (Htoks & Hcalc & _).
  destruct (tokens !! i) as [t0|] eqn:Ht0; [|done].
  destruct (tokens !! S i) as [t1|] eqn:Ht1; [|done].
  destruct (tokens !! S (S i)) as [t2|] eqn:Ht2; [|done].
  injection H0 as Hy0. injection H1 as Hy1. injection H2 as Hy2.
  assert (matched tokens i (S (S i))) as Hm.
  { split; [by rewrite Ht0; simpl; rewrite Hy0|].
    rewrite (drop_S _ _ _ Ht1), (drop_S _ _ _ Ht2). simpl.
    by rewrite Hy1, Hy2. }
  destruct (calc_jump_table_matched tokens _ i _ Hm Hcalc) as [Hji Hjj].
  rewrite <- Htoks in Ht0, Ht1, Ht2.
  destruct (clear_loop_iterates self i t0 t1 t2
              (Z.to_nat (cell (data s) (pointer s))) s)
    as (s' & Hits & Hrest); try done; [lia|].
  exists s'. split; [|done].
  destruct (decide (cell (data s) (pointer s) = 0)) as [Hz|Hnz].
  - rewrite Hz in Hits. exact Hits.
  - rewrite decide_False in Hits by lia. exact Hits.
Qed.

Lemma clear_loop_witness :
  let tokens := [mkToken LOOP_START 0; mkToken DECREMENT_BYTE 1;
                 mkToken LOOP_END 2] in
  let self := mkInterpreter tokens (<[0%nat := 3%nat]> (<[2%nat := 0%nat]> ∅))
                            8 256 in
  let s := mkLocals 0 0 0 {[0 := 2]} [] in
  ∃ s',
    iterates self (if decide (cell (data s) (pointer s) = 0) then 1
                   else 3 * Z.to_nat (cell (data s) (pointer s))) s s' ∧
    instr s' = 3%nat ∧ pointer s' = pointer s ∧
    output s' = output s ∧
    data s' = <[pointer s := 0]> (data s).
Proof.
  apply (clear_loop [mkToken LOOP_START 0; mkToken DECREMENT_BYTE 1;
                     mkToken LOOP_END 2] 8); try reflexivity.
  vm_compute. discriminate.
Defined.

(** ** Cell arithmetic *)

(** X12. An [INCREMENT_BYTE] followed by a [DECREMENT_BYTE], or the two in
    the other order, on a cell whose value is in [[0, _bitwidth)], leave every
    cell value as it was (the wrap-around included), and the pointer and the
    output too. *)
Theorem increment_decrement_cancel (self : BrainfuckInterpreter) (s : locals)
    (t1 t2 : BrainfuckToken) :
  _tokens self !! instr s = Some t1 →
  _tokens self !! S (instr s) = Some t2 →
  type t1 = INCREMENT_BYTE ∧ type t2 = DECREMENT_BYTE ∨
  type t1 = DECREMENT_BYTE ∧ type t2 = INCREMENT_BYTE →
  0 ≤ cell (data s) (pointer s) < _bitwidth self →
  ∃ s', iterates self 2 s s' ∧
    instr s' = S (S (instr s)) ∧ pointer s' = pointer s ∧
    output s' = output s ∧
    (∀ a, cell (data s') a = cell (data s) a).
Proof.
  intros Ht1 Ht2 Htypes Hv.
  destruct Htypes as [[Hy1 Hy2]|[Hy1 Hy2]].
  - eexists. split.
    + eapply iterates_S; [apply (iteration_increment_byte _ _ _ Ht1 Hy1)|].
      eapply iterates_S; [|apply iterates_O].
      apply (iteration_decrement_byte _ _ t2); [exact Ht2|exact Hy2].
    + simpl. split; [done|]. split; [done|]. split; [done|].
      intros a. rewrite cell_insert, insert_insert_eq.
      destruct (decide (pointer s = a)) as [<-|Hne].
      * rewrite cell_insert. repeat case_decide; lia.
      * by rewrite cell_insert_ne.
  - eexists. split.
    + eapply iterates_S; [apply (iteration_decrement_byte _ _ _ Ht1 Hy1)|].
      eapply iterates_S; [|apply iterates_O].
      apply (iteration_increment_byte _ _ t2); [exact Ht2|exact Hy2].
    + simpl. split; [done|]. split; [done|]. split; [done|].
      intros a. rewrite cell_insert, insert_insert_eq.
      destruct (decide (pointer s = a)) as [<-|Hne].
      * rewrite cell_insert. repeat case_decide; lia.
      * by rewrite cell_insert_ne.
Qed.

Lemma increment_decrement_cancel_witness :
  let self := mkInterpreter [mkToken INCREMENT_BYTE 0; mkToken DECREMENT_BYTE 1]
                            ∅ 8 256 in
  let s := mkLocals 0 0 0 {[0 := 255]} [] in
  ∃ s', iterates self 2 s s' ∧
    instr s' = S (S (instr s)) ∧ pointer s' = pointer s ∧
    output s' = output s ∧
    (∀ a, cell (data s') a = cell (data s) a).
Proof.
  apply (increment_decrement_cancel
           (mkInterpreter [mkToken INCREMENT_BYTE 0; mkToken DECREMENT_BYTE 1]
                          ∅ 8 256)
           (mkLocals 0 0 0 {[0 := 255]} [])
           (mkToken INCREMENT_BYTE 0) (mkToken DECREMENT_BYTE 1)).
  - reflexivity.
  - reflexivity.
  - left. split; reflexivity.
  - vm_compute. split; [discriminate|reflexivity].
Defined.

(** X13. An [INPUT_BYTE] step reads no input and changes no cell value: it
    goes on to the next instruction and leaves the pointer and the output as
    they were. Its one effect on the cell store is that of the
    [data.setdefault(pointer, 0)] which precedes every instruction: the address
    of the pointer is added with value 0 when it was absent, so the set of
    addresses afterwards is the old one plus that address; no other address
    is added and no stored value changes. *)
Theorem input_is_inert (self : BrainfuckInterpreter) (s : locals)
    (token : BrainfuckToken) :
  _tokens self !! instr s = Some token → type token = INPUT_BYTE →
  ∃ s', iteration self s = Ok (Next s') ∧
    instr s' = S (instr s) ∧ pointer s' = pointer s ∧
    output s' = output s ∧
    data s' = (setdefault (data s) (pointer s) 0).2 ∧
    dom (data s') = {[pointer s]} ∪ dom (data s) ∧
    (data s !! pointer s = None → data s' = <[pointer s := 0]> (data s)) ∧
    (is_Some (data s !! pointer s) → data s' = data s) ∧
    (∀ a v, data s !! a = Some v → data s' !! a = Some v) ∧
    (∀ a, cell (data s') a = cell (data s) a).
Proof.
  intros Htok Htype. rewrite (iteration_input_byte _ _ _ Htok Htype).
  eexists. split; [done|]. simpl. split; [done|]. split; [done|].
  split; [done|]. split; [done|]. split; [apply setdefault_dom|].
  split; [|split].
  - intros Hnone. unfold setdefault. by rewrite Hnone.
  - intros [v Hv]. unfold setdefault. by rewrite Hv.
  - rewrite setdefault_insert. split.
    + intros a v Ha. destruct (decide (pointer s = a)) as [<-|Hne].
      * by rewrite lookup_insert_eq, Ha.
      * by rewrite lookup_insert_ne.
    + intros a. destruct (decide (pointer s = a)) as [<-|Hne].
      * by rewrite cell_insert.
      * by rewrite cell_insert_ne.
Qed.

Lemma input_is_inert_witness :
  ∃ s', iteration (mkInterpreter [mkToken INPUT_BYTE 0] ∅ 8 256) run_start
          = Ok (Next s') ∧
    instr s' = S (instr run_start) ∧ pointer s' = pointer run_start ∧
    output s' = output run_start ∧
    data s' = (setdefault (data run_start) (pointer run_start) 0).2 ∧
    dom (data s') = {[pointer run_start]} ∪ dom (data run_start) ∧
    (data run_start !! pointer run_start = None →
     data s' = <[pointer run_start := 0]> (data run_start)) ∧
    (is_Some (data run_start !! pointer run_start) → data s' = data run_start) ∧
    (∀ a v, data run_start !! a = Some v → data s' !! a = Some v) ∧
    (∀ a, cell (data s') a = cell (data run_start) a).
Proof.
  apply (input_is_inert (mkInterpreter [mkToken INPUT_BYTE 0] ∅ 8 256)
           run_start (mkToken INPUT_BYTE 0)); reflexivity.
Defined.

(** ** More on the tokenizer *)

Section lexing.
Implicit Types (program : str) (c : char) (tok : BrainfuckToken).

Lemma tokenize_tokens_from program : tokenize program = Ok (tokens_from 0 program).
Proof. unfold tokenize. by rewrite tokenize_loop_tokens_from. Qed.

Lemma tokens_from_app program1 program2 : ∀ idx,
  tokens_from idx (program1 ++ program2) =
    tokens_from idx program1 ++ tokens_from (idx + length program1) program2.
Proof.
  induction program1 as [|c program1 IH]; intros idx; simpl.
  - by rewrite Nat.add_0_r.
  - rewrite IH. replace (S idx + length program1)%nat
      with (idx + S (length program1))%nat by lia.
    by destruct (token_enum_map !! c).
Qed.

Lemma tokens_from_shift program : ∀ idx k,
  tokens_from (k + idx) program =
    (λ t, mkToken (type t) (k + _char_idx t)) <$> tokens_from idx program.
Proof.
  induction program as [|c program IH]; intros idx k; simpl; [done|].
  replace (S (k + idx)) with (k + S idx)%nat by lia. rewrite IH.
  by destruct (token_enum_map !! c).
Qed.

Lemma tokens_from_kinds_filter program : ∀ idx idx',
  type <$> tokens_from idx program =
  type <$> tokens_from idx' (filter (λ c, c ∈ recognized_symbols) program).
Proof.
  induction program as [|c program IH]; intros idx idx'; [done|].
  rewrite filter_cons. cbn [tokens_from].
  destruct (token_enum_map !! c) as [k|] eqn:E.
  - rewrite decide_True by (apply recognized_symbols_map; eauto).
    cbn [tokens_from]. rewrite E. simpl. f_equal. apply IH.
  - rewrite decide_False; [apply IH|].
    rewrite recognized_symbols_map, E. by intros [? ?].
Qed.

Lemma token_enum_map_inj c1 c2 k :
  token_enum_map !! c1 = Some k → token_enum_map !! c2 = Some k → c1 = c2.
Proof.
  unfold token_enum_map. intros H1 H2.
  apply elem_of_list_to_map_2 in H1, H2.
  repeat (apply elem_of_cons in H1 as [H1|H1]; [injection H1 as -> ->|]);
    try (by apply elem_of_nil in H1);
    repeat (apply elem_of_cons in H2 as [H2|H2];
            [by injection H2 as ->|]);
    by apply elem_of_nil in H2.
Qed.

Lemma tokens_from_kinds_inj program1 : ∀ program2 idx1 idx2,
  Forall (λ c, c ∈ recognized_symbols) program1 →
  Forall (λ c, c ∈ recognized_symbols) program2 →
  type <$> tokens_from idx1 program1 = type <$> tokens_from idx2 program2 →
  program1 = program2.
Proof.
  induction program1 as [|c1 program1 IH]; intros program2 idx1 idx2 H1 H2 Heq.
  - destruct program2 as [|c2 program2]; [done|].
    apply Forall_cons in H2 as [[k Hk]%recognized_symbols_map _].
    simpl in Heq. by rewrite Hk in Heq.
  - apply Forall_cons in H1 as [[k1 Hk1]%recognized_symbols_map H1].
    simpl in Heq. rewrite Hk1 in Heq.
    destruct program2 as [|c2 program2]; [done|].
    apply Forall_cons in H2 as [[k2 Hk2]%recognized_symbols_map H2].
    simpl in Heq. rewrite Hk2 in Heq. simpl in Heq.
    injection Heq as -> Heq.
    f_equal; [by eapply token_enum_map_inj|by eapply IH].
Qed.
End lexing.

(** X14. Tokenizing a concatenation gives the tokens of the first text
    followed by the tokens of the second, their offsets moved up by the length
    of the first. *)
Theorem tokenize_app (program1 program2 : str) :
  ∃ tokens1 tokens2,
    tokenize program1 = Ok tokens1 ∧ tokenize program2 = Ok tokens2 ∧
    tokenize (program1 ++ program2) =
      Ok (tokens1 ++
          ((λ t, mkToken (type t) (length program1 + _char_idx t)) <$> tokens2)).
Proof.
  exists (tokens_from 0 program1), (tokens_from 0 program2).
  rewrite !tokenize_tokens_from. split; [done|]. split; [done|].
  rewrite tokens_from_app. simpl.
  by rewrite <- (tokens_from_shift program2 0 (length program1)), Nat.add_0_r.
Qed.

(** X16. On texts made of the eight symbols only, the token kinds determine
    the text: two such texts with the same sequence of token kinds are
    equal. *)
Theorem tokenize_lossless (program1 program2 : str)
    (tokens1 tokens2 : list BrainfuckToken) :
  Forall (λ c, c ∈ recognized_symbols) program1 →
  Forall (λ c, c ∈ recognized_symbols) program2 →
  tokenize program1 = Ok tokens1 → tokenize program2 = Ok tokens2 →
  type <$> tokens1 = type <$> tokens2 →
  program1 = program2.
Proof.
  rewrite !tokenize_tokens_from. intros H1 H2 Ht1 Ht2 Heq.
  injection Ht1 as <-. injection Ht2 as <-.
  by eapply tokens_from_kinds_inj.
Qed.

Lemma tokenize_lossless_witness :
  str_of_string "+[-]." = [43; 91; 45; 93; 46].
Proof.
  apply (tokenize_lossless (str_of_string "+[-].") [43; 91; 45; 93; 46]
           (tokens_from 0 (str_of_string "+[-]."))
           (tokens_from 0 [43; 91; 45; 93; 46])).
  - vm_compute. repeat constructor.
  - vm_compute. repeat constructor.
  - reflexivity.
  - reflexivity.
  - reflexivity.
Defined.

(** ** What execution depends on *)

Section kinds.
Implicit Types (tokens : list BrainfuckToken) (self : BrainfuckInterpreter).

Lemma validate_loop_kinds tokens1 : ∀ tokens2 instr jump_stack,
  type <$> tokens1 = type <$> tokens2 →
  validate_loop instr tokens1 jump_stack = validate_loop instr tokens2 jump_stack.
Proof.
  induction tokens1 as [|t1 tokens1 IH]; intros [|t2 tokens2] instr jump_stack
    Heq; try done.
  simpl in Heq. injection Heq as Ht Heq. simpl. rewrite Ht.
  destruct (type t2); simpl; try (by apply IH).
  destruct jump_stack; simpl; [done|by apply IH].
Qed.

Lemma calc_loop_kinds tokens1 : ∀ tokens2 instr jump_stack jump_table,
  type <$> tokens1 = type <$> tokens2 →
  calc_loop instr tokens1 jump_stack jump_table
    = calc_loop instr tokens2 jump_stack jump_table.
Proof.
  induction tokens1 as [|t1 tokens1 IH];
    intros [|t2 tokens2] instr jump_stack jump_table Heq; try done.
  simpl in Heq. injection Heq as Ht Heq. simpl. rewrite Ht.
  destruct (type t2); simpl; try (by apply IH).
  destruct jump_stack; simpl; [done|by apply IH].
Qed.

Lemma iteration_kinds self1 self2 s :
  type <$> _tokens self1 = type <$> _tokens self2 →
  _jump_table self1 = _jump_table self2 →
  _bitwidth self1 = _bitwidth self2 →
  iteration self1 s = iteration self2 s.
Proof.
  intros Hk Hjt Hbw. unfold iteration, loop_body, token_at.
  assert (length (_tokens self1) = length (_tokens self2)) as ->.
  { by rewrite <- (length_fmap type (_tokens self1)), Hk, length_fmap. }
  assert (type <$> (_tokens self1 !! instr s)
          = type <$> (_tokens self2 !! instr s)) as Hty.
  { by rewrite <- !list_lookup_fmap, Hk. }
  simpl. case_bool_decide; [done|].
  destruct (_tokens self1 !! instr s) as [t1|],
           (_tokens self2 !! instr s) as [t2|]; try done.
  injection Hty as Hty. simpl. by rewrite Hty, Hjt, Hbw.
Qed.

Lemma run_loop_kinds self1 self2 :
  type <$> _tokens self1 = type <$> _tokens self2 →
  _jump_table self1 = _jump_table self2 →
  _bitwidth self1 = _bitwidth self2 →
  ∀ fuel s, run_loop fuel self1 s = run_loop fuel self2 s.
Proof.
  intros Hk Hjt Hbw. induction fuel as [|fuel IH]; intros s; simpl; [done|].
  rewrite (iteration_kinds self1 self2 s Hk Hjt Hbw).
  by destruct (iteration self2 s) as [[s'|out]|e].
Qed.

Lemma init_kinds tokens1 tokens2 bits :
  type <$> tokens1 = type <$> tokens2 →
  match __init__ tokens1 bits, __init__ tokens2 bits with
  | Ok self1, Ok self2 =>
      _tokens self1 = tokens1 ∧ _tokens self2 = tokens2 ∧
      _jump_table self1 = _jump_table self2 ∧
      _bits self1 = _bits self2 ∧ _bitwidth self1 = _bitwidth self2
  | Raise e1, Raise e2 => e1 = e2
  | _, _ => False
  end.
Proof.
  intros Hk. unfold __init__, validate, _calc_jump_table.
  rewrite (validate_loop_kinds tokens1 tokens2 0 [] Hk).
  rewrite (calc_loop_kinds tokens1 tokens2 0 [] ∅ Hk).
  destruct (validate_loop 0 tokens2 []) as [st|]; simpl; [|done].
  destruct (calc_loop 0 tokens2 [] ∅) as [[st' jt]|]; simpl; [|done].
  by case_bool_decide.
Qed.
End kinds.

(** X15. Execution depends on the kinds of the tokens only, not on their
    source offsets: on two token sequences with the same kinds the constructor
    fails alike or builds the same jump table, and [run] gives the same
    answer for every bound on the iterations. *)
Theorem offsets_are_irrelevant (tokens1 tokens2 : list BrainfuckToken)
    (bits : Z) (fuel : nat) :
  type <$> tokens1 = type <$> tokens2 →
  match __init__ tokens1 bits, __init__ tokens2 bits with
  | Ok self1, Ok self2 =>
      _jump_table self1 = _jump_table self2 ∧
      run fuel self1 = run fuel self2
  | Raise e1, Raise e2 => e1 = e2
  | _, _ => False
  end.
Proof.
  intros Hk. pose proof (init_kinds tokens1 tokens2 bits Hk) as Hinit.
  destruct (__init__ tokens1 bits) as [self1|e1],
           (__init__ tokens2 bits) as [self2|e2]; try done.
  destruct Hinit as (Ht1 & Ht2 & Hjt & _ & Hbw). split; [done|].
  apply run_loop_kinds; [by rewrite Ht1, Ht2|done|done].
Qed.

Lemma offsets_are_irrelevant_witness :
  match __init__ [mkToken INCREMENT_BYTE 0; mkToken OUTPUT_BYTE 1] 8,
        __init__ [mkToken INCREMENT_BYTE 5; mkToken OUTPUT_BYTE 9] 8 with
  | Ok self1, Ok self2 =>
      _jump_table self1 = _jump_table self2 ∧
      run 10 self1 = run 10 self2
  | Raise e1, Raise e2 => e1 = e2
  | _, _ => False
  end.
Proof.
  apply (offsets_are_irrelevant
           [mkToken INCREMENT_BYTE 0; mkToken OUTPUT_BYTE 1]
           [mkToken INCREMENT_BYTE 5; mkToken OUTPUT_BYTE 9] 8 10).
  reflexivity.
Defined.

(** X17. Characters outside the eight symbols are comments: deleting them
    from a program text changes nothing in what tokenizing, constructing and
    running it gives, for every bit-width and every bound on the
    iterations. *)
Theorem comments_are_irrelevant (program : str) (bits : Z) (fuel : nat) :
  interpret fuel program bits =
  interpret fuel (filter (λ c, c ∈ recognized_symbols) program) bits.
Proof.
  unfold interpret. rewrite !tokenize_tokens_from. simpl.
  pose proof (init_kinds (tokens_from 0 program)
                (tokens_from 0 (filter (λ c, c ∈ recognized_symbols) program))
                bits (tokens_from_kinds_filter program 0 0)) as Hinit.
  destruct (__init__ (tokens_from 0 program) bits) as [self1|e1],
           (__init__ (tokens_from 0 _) bits) as [self2|e2]; try done.
  - destruct Hinit as (Ht1 & Ht2 & Hjt & _ & Hbw).
    apply run_loop_kinds; [|done|done].
    rewrite Ht1, Ht2. apply tokens_from_kinds_filter.
  - by rewrite Hinit.
Qed.

(** ** The command line *)

Section command_line_facts.
Variable files : str → option str.

Lemma main_loop_app (fuel : nat) (filepaths : list str) :
  ∀ (outs : list str) (rest : list str) (stdout : str),
  Forall2 (λ filepath out,
             run_file files fuel filepath = Some (inr out) ∧ out ≠ [])
          filepaths outs →
  main_loop files fuel (filepaths ++ rest) stdout =
  main_loop files fuel rest
    (stdout ++
     concat (zip_with (λ filepath out,
                         header filepath ++ out ++
                         (if bool_decide (last out = Some (ord "010")) then []
                          else [9166; ord "010"]))
                      filepaths outs)).
Proof.
  induction filepaths as [|filepath filepaths IH]; intros outs rest stdout Hall.
  - apply Forall2_nil_inv_l in Hall as ->. simpl. by rewrite app_nil_r.
  - apply Forall2_cons_inv_l in Hall as (out & outs' & [Hrun Hne] & Hall & ->).
    rewrite <- app_comm_cons. cbn [main_loop zip_with concat]. rewrite Hrun.
    destruct (last out) as [c|] eqn:Hlast.
    2:{ apply last_None in Hlast. done. }
    rewrite (IH outs' rest _ Hall). f_equal.
    repeat case_bool_decide; try congruence.
    + by rewrite <- !app_assoc.
    + by rewrite app_nil_r, <- !app_assoc.
Qed.
End command_line_facts.

(** X18. A program that puts out nothing is printed as nothing when it is the
    only file, but with more files after it [main] dies of an [IndexError]
    right after printing the header of that file, at [out[-1]]. *)
Theorem main_on_silent_program (files : str → option str) (fuel : nat)
    (prog filepath : str) (rest : list str) :
  run_file files fuel filepath = Some (inr []) →
  main files fuel [prog; filepath] = ([], Returned) ∧
  (rest ≠ [] →
   main files fuel (prog :: filepath :: rest)
     = (header filepath, Failed (CoreError IndexError))).
Proof.
  intros Hrun. split.
  - unfold main. rewrite bool_decide_false by (simpl; lia). by rewrite Hrun.
  - intros Hrest. destruct rest as [|next rest]; [done|].
    unfold main. rewrite bool_decide_false by (simpl; lia).
    cbn [drop main_loop]. rewrite Hrun. cbn [last].
    by rewrite app_nil_l, app_nil_r.
Qed.

Lemma main_on_silent_program_witness :
  let files := λ _ : str, Some (str_of_string "+[-]") in
  main files 10 [str_of_string "bf"; str_of_string "a.b"] = ([], Returned) ∧
  ([str_of_string "b.b"] ≠ [] →
   main files 10 [str_of_string "bf"; str_of_string "a.b"; str_of_string "b.b"]
     = (header (str_of_string "a.b"), Failed (CoreError IndexError))).
Proof.
  apply (main_on_silent_program (λ _ : str, Some (str_of_string "+[-]")) 10
           (str_of_string "bf") (str_of_string "a.b") [str_of_string "b.b"]).
  reflexivity.
Defined.

(** X19. With two or more files, [main] writes for each file in turn its
    header line, its output and, unless the output ends in a newline, the
    line [⏎]; it returns when every file has run and put out something, and
    it stops at the first file whose run fails, leaving what it wrote for the
    files before. *)
Theorem main_frames_outputs (files : str → option str) (fuel : nat)
    (prog : str) (filepaths : list str) (outs : list str) :
  Forall2 (λ filepath out,
             run_file files fuel filepath = Some (inr out) ∧ out ≠ [])
          filepaths outs →
  let written :=
    concat (zip_with (λ filepath out,
                        header filepath ++ out ++
                        (if bool_decide (last out = Some (ord "010")) then []
                         else [9166; ord "010"]))
                     filepaths outs) in
  ((2 ≤ length filepaths)%nat →
   main files fuel (prog :: filepaths) = (written, Returned)) ∧
  (∀ filepath rest f,
     (1 ≤ length filepaths + length rest)%nat →
     run_file files fuel filepath = Some (inl f) →
     main files fuel (prog :: filepaths ++ filepath :: rest)
       = (written, Failed f)).
Proof.
  intros Hall written. split.
  - intros Hlen. unfold main.
    destruct filepaths as [|p1 [|p2 filepaths]]; simpl in Hlen; try lia.
    rewrite bool_decide_false by (simpl; lia).
    change (drop 1 (prog :: p1 :: p2 :: filepaths)) with (p1 :: p2 :: filepaths).
    rewrite <- (app_nil_r (p1 :: p2 :: filepaths)).
    by rewrite (main_loop_app files fuel _ outs [] [] Hall).
  - intros filepath rest f Hlen Hfail. unfold main.
    rewrite bool_decide_false by (simpl; rewrite length_app; simpl; lia).
    assert (main_loop files fuel (drop 1 (prog :: filepaths ++ filepath :: rest)) []
            = (written, Failed f)) as Hloop.
    { rewrite skipn_cons, drop_0. rewrite (main_loop_app files fuel _ outs _ [] Hall).
      cbn [main_loop]. by rewrite Hfail. }
    destruct filepaths as [|p1 [|p2 filepaths]].
    + destruct rest as [|r rest]; [simpl in Hlen; lia|]. exact Hloop.
    + exact Hloop.
    + exact Hloop.
Qed.

Lemma main_frames_outputs_witness :
  let files := λ _ : str, Some (str_of_string "+.") in
  let filepaths := [str_of_string "a"; str_of_string "b"] in
  let outs := [[1]; [1]] in
  let written :=
    concat (zip_with (λ filepath out,
                        header filepath ++ out ++
                        (if bool_decide (last out = Some (ord "010")) then []
                         else [9166; ord "010"]))
                     filepaths outs) in
  ((2 ≤ length filepaths)%nat →
   main files 10 (str_of_string "bf" :: filepaths) = (written, Returned)) ∧
  (∀ filepath rest f,
     (1 ≤ length filepaths + length rest)%nat →
     run_file files 10 filepath = Some (inl f) →
     main files 10 (str_of_string "bf" :: filepaths ++ filepath :: rest)
       = (written, Failed f)).
Proof.
  apply (main_frames_outputs (λ _ : str, Some (str_of_string "+.")) 10
           (str_of_string "bf") [str_of_string "a"; str_of_string "b"]
           [[1]; [1]]).
  repeat constructor; discriminate.
Defined.

(** ** Representations *)

Section representations.

Lemma ord_inj c1 c2 : ord c1 = ord c2 → c1 = c2.
Proof.
  unfold ord. intros H. apply (inj Z.of_N) in H.
  rewrite <- (ascii_N_embedding c1), <- (ascii_N_embedding c2). by rewrite H.
Qed.

Lemma str_of_string_inj s1 s2 : str_of_string s1 = str_of_string s2 → s1 = s2.
Proof.
  unfold str_of_string. intros H.
  rewrite <- (string_of_list_ascii_of_string s1),
          <- (string_of_list_ascii_of_string s2).
  f_equal. revert H. generalize (list_ascii_of_string s1) as l1.
  generalize (list_ascii_of_string s2) as l2.
  intros l2 l1. revert l2. induction l1 as [|c1 l1 IH]; intros [|c2 l2] H;
    try done.
  simpl in H. injection H as Hc H. f_equal; [by apply ord_inj|by apply IH].
Qed.

Lemma str_of_int_inj i1 i2 : str_of_int i1 = str_of_int i2 → i1 = i2.
Proof.
  unfold str_of_int. intros H. apply str_of_string_inj in H.
  by apply (inj pretty) in H.
Qed.
End representations.

(** X20. The representation of a token tells the token: two tokens with the
    same [__repr__] have the same kind and the same offset. *)
Theorem token_repr_inj (tok1 tok2 : BrainfuckToken) :
  token_repr tok1 = token_repr tok2 → tok1 = tok2.
Proof.
  destruct tok1 as [k1 n1], tok2 as [k2 n2]. unfold token_repr.
  cbn [type _char_idx]. intros H.
  assert (k1 = k2) as ->.
  { destruct k1, k2; try done; simpl in H; discriminate. }
  f_equal. apply (inj Z.of_nat), str_of_int_inj.
  apply app_inv_head in H. apply app_inv_head in H. apply app_inv_head in H.
  by apply app_inv_tail in H.
Qed.

Lemma token_repr_inj_witness : mkToken LOOP_START 12 = mkToken LOOP_START 12.
Proof.
  apply (token_repr_inj (mkToken LOOP_START 12) (mkToken LOOP_START 12)).
  reflexivity.
Defined.

(** X21. The representation of an interpreter the constructor returned is
    one of four strings, naming 8, 16, 32 or 64 bits; after a request for any
    other width it is the one naming 8 bits. *)
Theorem interpreter_repr_widths (tokens : list BrainfuckToken) (bits : Z)
    (self : BrainfuckInterpreter) :
  __init__ tokens bits = Ok self →
  interpreter_repr self ∈
    [str_of_string "<BrainfuckInterpreter, 8-bit>";
     str_of_string "<BrainfuckInterpreter, 16-bit>";
     str_of_string "<BrainfuckInterpreter, 32-bit>";
     str_of_string "<BrainfuckInterpreter, 64-bit>"] ∧
  (bits ∉ [8; 16; 32; 64] →
   interpreter_repr self = str_of_string "<BrainfuckInterpreter, 8-bit>") ∧
  (bits ∈ [8; 16; 32; 64] →
   interpreter_repr self =
     str_of_string "<BrainfuckInterpreter, " ++ str_of_int bits ++
     str_of_string "-bit>").
Proof.
  intros Hinit. destruct (init_inv _ _ _ Hinit) as (_ & _ & Hb & _ & Hin & Hout).
  unfold interpreter_repr. split; [|split].
  - set_unfold in Hb. destruct Hb as [->|[->|[->|[->|[]]]]]; set_solver.
  - intros Hbits. by rewrite (Hout Hbits).
  - intros Hbits. by rewrite (Hin Hbits).
Qed.

Lemma interpreter_repr_widths_witness :
  let self := mkInterpreter [] ∅ 8 256 in
  interpreter_repr self ∈
    [str_of_string "<BrainfuckInterpreter, 8-bit>";
     str_of_string "<BrainfuckInterpreter, 16-bit>";
     str_of_string "<BrainfuckInterpreter, 32-bit>";
     str_of_string "<BrainfuckInterpreter, 64-bit>"] ∧
  (7 ∉ [8; 16; 32; 64] →
   interpreter_repr self = str_of_string "<BrainfuckInterpreter, 8-bit>") ∧
  (7 ∈ [8; 16; 32; 64] →
   interpreter_repr self =
     str_of_string "<BrainfuckInterpreter, " ++ str_of_int 7 ++
     str_of_string "-bit>").
Proof.
  apply (interpreter_repr_widths [] 7). reflexivity.
Defined.

(** ** What an iteration touches, and loops that never end *)

(** X22. An iteration touches one cell only: every address other than the
    pointer keeps its entry (or its absence), the address of the pointer is in
    the store afterwards, no address is ever removed, and the output only
    grows at its end. *)
Theorem iteration_frame (self : BrainfuckInterpreter) (s s' : locals) :
  iteration self s = Ok (Next s') →
  (∀ a, a ≠ pointer s → data s' !! a = data s !! a) ∧
  is_Some (data s' !! pointer s) ∧
  dom (data s) ⊆ dom (data s') ∧
  output s `prefix_of` output s'.
Proof.
  intros Hit.
  destruct (iteration_next _ _ _ Hit) as (_ & _ & _ & [v Hd] & Ho & _).
  rewrite Hd. split; [|split; [|split]].
  - intros a Ha. by rewrite lookup_insert_ne.
  - rewrite lookup_insert_eq. by eexists.
  - rewrite dom_insert_L. apply union_subseteq_r.
  - destruct Ho as [->|[-> _]]; [done|]. by apply prefix_app_r.
Qed.

Lemma iteration_frame_witness :
  let self := mkInterpreter [mkToken INCREMENT_BYTE 0] ∅ 8 256 in
  let s := run_start in
  let s' := mkLocals 0 1 1 {[0 := 1]} [] in
  (∀ a, a ≠ pointer s → data s' !! a = data s !! a) ∧
  is_Some (data s' !! pointer s) ∧
  dom (data s) ⊆ dom (data s') ∧
  output s `prefix_of` output s'.
Proof.
  apply (iteration_frame (mkInterpreter [mkToken INCREMENT_BYTE 0] ∅ 8 256)
           run_start (mkLocals 0 1 1 {[0 := 1]} [])).
  reflexivity.
Defined.

Section divergence.
Implicit Types (self : BrainfuckInterpreter) (s : locals).

Lemma run_loop_stuck_from self s :
  reachable self s → (∀ fuel, run_loop fuel self s = None) →
  ∀ fuel, run fuel self = None.
Proof.
  intros Hs. induction Hs as [|s0 s1 Hs0 IH Hit]; intros Hnone; [done|].
  apply IH. intros [|fuel]; [done|]. simpl. rewrite Hit. apply Hnone.
Qed.

Lemma empty_loop_spins self i t0 t1 :
  _tokens self !! i = Some t0 → type t0 = LOOP_START →
  _tokens self !! S i = Some t1 → type t1 = LOOP_END →
  _jump_table self !! S i = Some i →
  ∀ fuel s, cell (data s) (pointer s) ≠ 0 →
    instr s = i ∨ instr s = S i →
    run_loop fuel self s = None.
Proof.
  intros Ht0 Hy0 Ht1 Hy1 Hjj.
  induction fuel as [|fuel IH]; intros s Hc Hi; [done|]. simpl.
  assert (cell (setdefault (data s) (pointer s) 0).2 (pointer s) ≠ 0) as Hc'.
  { unfold cell. by rewrite setdefault_lookup. }
  destruct Hi as [Hi|Hi].
  - rewrite <- Hi in Ht0.
    rewrite (iteration_loop_start _ _ _ Ht0 Hy0), decide_False by done.
    apply IH; simpl; [done|]. right. by rewrite Hi.
  - rewrite <- Hi in Ht1, Hjj.
    rewrite (iteration_loop_end _ _ _ Ht1 Hy1), decide_False by done.
    unfold getitem. rewrite Hjj. simpl.
    apply IH; simpl; [done|]. by left.
Qed.
End divergence.

(** X23. [run] has no bound of its own: in an interpreter the constructor
    returned, once the loop reaches an empty loop [[]] with a non-zero
    current cell, [run] never returns and never raises, however many
    iterations it is given. *)
Theorem empty_loop_never_ends (tokens : list BrainfuckToken) (bits : Z)
    (self : BrainfuckInterpreter) (s : locals) :
  __init__ tokens bits = Ok self → reachable self s →
  type <$> (tokens !! instr s) = Some LOOP_START →
  type <$> (tokens !! S (instr s)) = Some LOOP_END →
  cell (data s) (pointer s) ≠ 0 →
  ∀ fuel, run fuel self = None.
Proof.
  intros Hinit Hs H0 H1 Hc.
  destruct (init_inv _ _ _ Hinit) as (Htoks & Hcalc & _).
  destruct (tokens !! instr s) as [t0|] eqn:Ht0; [|done].
  destruct (tokens !! S (instr s)) as [t1|] eqn:Ht1; [|done].
  injection H0 as Hy0. injection H1 as Hy1.
  assert (matched tokens (instr s) (S (instr s))) as Hm.
  { split; [by rewrite Ht0; simpl; rewrite Hy0|].
    rewrite (drop_S _ _ _ Ht1). simpl. by rewrite Hy1. }
  destruct (calc_jump_table_matched tokens _ _ _ Hm Hcalc) as [_ Hjj].
  rewrite <- Htoks in Ht0, Ht1.
  apply (run_loop_stuck_from self s Hs). intros fuel.
  apply (empty_loop_spins self (instr s) t0 t1); auto.
Qed.

Lemma empty_loop_never_ends_witness :
  run 1000 (mkInterpreter
              [mkToken INCREMENT_BYTE 0; mkToken LOOP_START 1;
               mkToken LOOP_END 2]
              (<[1%nat := 3%nat]> (<[2%nat := 1%nat]> ∅)) 8 256) = None.
Proof.
  refine (empty_loop_never_ends
            [mkToken INCREMENT_BYTE 0; mkToken LOOP_START 1; mkToken LOOP_END 2]
            8 _ (mkLocals 0 1 1 {[0 := 1]} []) _ _ _ _ _ 1000%nat).
  - reflexivity.
  - eapply reachable_next; [apply reachable_start|reflexivity].
  - reflexivity.
  - reflexivity.
  - vm_compute. discriminate.
Defined.
